(** * Track repository of the music-tracker API

    A shallow embedding of the data-access layer (the track repository:
    [createTrack], [updateTrack], [getTrackById], [getTrackBySlug],
    [getTracks], [deleteTrack], [deleteMultipleTracks], [deleteAudioFile],
    [getGenres]) together with the two stores it mediates between: the
    track collection (a document collection with unique indexes on [id]
    and [slug]) and the media host (objects addressed by a public id).

    Asynchronous calls are sequenced in program order: every [await] is a
    bind of the state-and-error monad [M] below.

    What the model fixes where the program leaves it to its environment:
    - a request to the media host to destroy an object always completes
      (transport failures of the host are outside the model); an upload
      is answered with a result or with an error ([uploadAnswer]);
    - [clock] is the time a call reads first; a second reading within the
      same call is later by [lag]; time passes between calls ([advance]);
    - the collection returns documents in insertion order, and a sort
      keeps documents with equal keys in that order;
    - whether a pattern is a regular expression ([regexValid]) and what
      it matches ([regexTest]) are parameters of the query functions. *)

From Stdlib Require Import ZArith List Sorted Lia.
From stdpp Require Import base option list strings gmap pretty.

Local Open Scope Z_scope.

(** ** Data model *)

(** The [Track] document, with the ten paths of [trackSchema]. *)
Module Track.
Record t : Type := mk {
  id : string;
  title : string;
  artist : string;
  album : string;
  genres : list string;
  coverImage : string;
  audioFile : string;
  slug : string;
  createdAt : string;
  updatedAt : string
}.
End Track.

(** [Partial<Track>]: every path optional; [None] is an absent key. *)
Module Partial.
Record t : Type := mk {
  id : option string;
  title : option string;
  artist : option string;
  album : option string;
  genres : option (list string);
  coverImage : option string;
  audioFile : option string;
  slug : option string;
  createdAt : option string;
  updatedAt : option string
}.
End Partial.

(** [Omit<Track, 'id' | 'createdAt' | 'updatedAt'>], the argument of
    [createTrack]. The paths that carry a schema default may be absent. *)
Module TrackInput.
Record t : Type := mk {
  title : string;
  artist : string;
  album : option string;
  genres : option (list string);
  coverImage : option string;
  audioFile : option string;
  slug : string
}.
End TrackInput.

(** [QueryParams]: all keys optional. [page] and [limit] are integers. *)
Module QueryParams.
Record t : Type := mk {
  search : option string;
  genre : option string;
  artist : option string;
  sort : option string;
  order : option string;
  page : option Z;
  limit : option Z
}.

Definition with_search (s : option string) (q : t) : t :=
  mk s (genre q) (artist q) (sort q) (order q) (page q) (limit q).

Definition with_order (o : option string) (q : t) : t :=
  mk (search q) (genre q) (artist q) (sort q) o (page q) (limit q).

Definition with_paging (p l : option Z) (q : t) : t :=
  mk (search q) (genre q) (artist q) (sort q) (order q) p l.
End QueryParams.

(** The value [getTracks] resolves to. *)
Module TracksPage.
Record t : Type := mk { tracks : list Track.t; total : nat }.
End TracksPage.

(** [BatchDeleteResponse]. *)
Module BatchDeleteResponse.
Record t : Type := mk { success : list string; failed : list string }.
End BatchDeleteResponse.

(** ** The world the repository runs in *)

(** [tracks] is the collection in its natural (insertion) order; [media]
    the set of public ids held by the media host; [clock] the current time
    in milliseconds since the epoch; [cloudinaryFolder] the value of the
    environment variable [CLOUDINARY_FOLDER]; [lag] the milliseconds by
    which the clock has moved on when a call reads it a second time. *)
Record World : Type := mkWorld {
  tracks : list Track.t;
  media : gset string;
  clock : Z;
  cloudinaryFolder : option string;
  lag : Z
}.

Definition setTracks (l : list Track.t) (w : World) : World :=
  mkWorld l (media w) (clock w) (cloudinaryFolder w) (lag w).

Definition setMedia (m : gset string) (w : World) : World :=
  mkWorld (tracks w) m (clock w) (cloudinaryFolder w) (lag w).

(** Time passing between two calls. *)
Definition advance (d : Z) (w : World) : World :=
  mkWorld (tracks w) (media w) (clock w + d) (cloudinaryFolder w) (lag w).

(** What a rejected promise carries. *)
Inductive Error : Type :=
| DuplicateKey (path : string)
| ValidationError (path : string)
| NegativeSkip
| SyntaxError (pattern : string)
| BadSortPath (path : string)
| UploadFailed.

(** State and errors: a computation ends in a value or an error, and in
    both cases leaves a world behind. *)
Definition M (A : Type) : Type := World → (Error + A) * World.

#[global] Instance M_ret : MRet M := λ A (a : A) w, (inr a, w).

#[global] Instance M_bind : MBind M := λ A B (k : A → M B) (c : M A) w,
  match c w with
  | (inr a, w') => k a w'
  | (inl e, w') => (inl e, w')
  end.

(** The value a computation resolved to, if it did. *)
Definition resolved {A : Type} (r : (Error + A) * World) : option A :=
  match r.1 with inr a => Some a | inl _ => None end.

(** JavaScript truthiness of a string and of an optional string. *)
Definition truthy (s : string) : bool :=
  match s with "" => false | _ => true end.

Definition truthy_opt (o : option string) : bool :=
  match o with Some s => truthy s | None => false end.

(** ** The clock *)

(** [Date.now()]. *)
Definition dateNow : M Z := λ w, (inr (clock w), w).

(** Decimal digits of [z], left-padded with zeros to [width]. *)
Fixpoint zeros (n : nat) : string :=
  match n with O => "" | S n' => "0" +:+ zeros n' end.

Definition pad (width : nat) (z : Z) : string :=
  let s := pretty (Z.to_N z) in
  zeros (width - String.length s) +:+ s.

(** Civil date (year, month, day) of a day number counted from
    1970-01-01, in the proleptic Gregorian calendar. *)
Definition civilFromDays (days : Z) : Z * Z * Z :=
  let z := days + 719468 in
  let era := z / 146097 in
  let doe := z - era * 146097 in
  let yoe := (doe - doe / 1460 + doe / 36524 - doe / 146096) / 365 in
  let doy := doe - (365 * yoe + yoe / 4 - yoe / 100) in
  let mp := (5 * doy + 2) / 153 in
  let d := doy - (153 * mp + 2) / 5 + 1 in
  let m := if mp <? 10 then mp + 3 else mp - 9 in
  let y := yoe + era * 400 in
  (if m <=? 2 then y + 1 else y, m, d).

Definition isoYear (y : Z) : string :=
  if (0 <=? y) && (y <=? 9999) then pad 4 y
  else (if y <? 0 then "-" else "+") +:+ pad 6 (Z.abs y).

(** [new Date(ms).toISOString()]. *)
Definition toISOString (ms : Z) : string :=
  let days := ms / 86400000 in
  let r := ms mod 86400000 in
  let '(y, m, d) := civilFromDays days in
  isoYear y +:+ "-" +:+ pad 2 m +:+ "-" +:+ pad 2 d +:+ "T" +:+
  pad 2 (r / 3600000) +:+ ":" +:+ pad 2 (r / 60000 mod 60) +:+ ":" +:+
  pad 2 (r / 1000 mod 60) +:+ "." +:+ pad 3 (r mod 1000) +:+ "Z".

(** [new Date().toISOString()], as the first reading of the clock in a
    call. *)
Definition nowISOString : M string := λ w, (inr (toISOString (clock w)), w).

(** [new Date().toISOString()], when the call has read the clock before:
    the clock has moved on by [lag]. *)
Definition laterISOString : M string :=
  λ w, (inr (toISOString (clock w + lag w)), w).

(** ** The track collection ([TrackModel]) *)

Definition byId (i : string) (t : Track.t) : bool :=
  bool_decide (Track.id t = i).

Definition bySlug (s : string) (t : Track.t) : bool :=
  bool_decide (Track.slug t = s).

Definition ids (l : list Track.t) : list string := Track.id <$> l.
Definition slugs (l : list Track.t) : list string := Track.slug <$> l.

(** The first document, in natural order, that satisfies [p], with the
    documents before and after it. *)
Fixpoint locate (p : Track.t → bool) (l : list Track.t)
  : option (list Track.t * Track.t * list Track.t) :=
  match l with
  | [] => None
  | t :: l' =>
      if p t then Some ([], t, l')
      else match locate p l' with
           | Some (pre, x, post) => Some (t :: pre, x, post)
           | None => None
           end
  end.

(** [TrackModel.findOne(filter)]. *)
Definition TrackModel_findOne (p : Track.t → bool) : M (option Track.t) :=
  λ w, (inr (List.find p (tracks w)), w).

(** [TrackModel.findOneAndDelete({ id })]: removes the first match and
    resolves to the removed document. *)
Definition TrackModel_findOneAndDelete (i : string) : M (option Track.t) :=
  λ w, match locate (byId i) (tracks w) with
       | None => (inr None, w)
       | Some (pre, t, post) => (inr (Some t), setTracks (pre ++ post) w)
       end.

(** The effect of [$set] with the keys present in [u]. *)
Definition applySet (u : Partial.t) (t : Track.t) : Track.t :=
  Track.mk
    (default (Track.id t) (Partial.id u))
    (default (Track.title t) (Partial.title u))
    (default (Track.artist t) (Partial.artist u))
    (default (Track.album t) (Partial.album u))
    (default (Track.genres t) (Partial.genres u))
    (default (Track.coverImage t) (Partial.coverImage u))
    (default (Track.audioFile t) (Partial.audioFile u))
    (default (Track.slug t) (Partial.slug u))
    (default (Track.createdAt t) (Partial.createdAt u))
    (default (Track.updatedAt t) (Partial.updatedAt u)).

(** A unique index rejects a write that moves a document onto a key that
    another document holds; a write that leaves the key alone does not
    touch the index. *)
Definition collides (old new : string) (others : list string) : bool :=
  bool_decide (new ≠ old) && bool_decide (new ∈ others).

(** [TrackModel.findOneAndUpdate({ id }, u, { new: true })]: the keys of
    [u] are written to the first match, which is resolved to as it is
    after the write. Validators do not run on this path. *)
Definition TrackModel_findOneAndUpdate (i : string) (u : Partial.t)
  : M (option Track.t) :=
  λ w, match locate (byId i) (tracks w) with
       | None => (inr None, w)
       | Some (pre, t, post) =>
           let t' := applySet u t in
           if collides (Track.id t) (Track.id t') (ids (pre ++ post))
           then (inl (DuplicateKey "id"), w)
           else if collides (Track.slug t) (Track.slug t') (slugs (pre ++ post))
           then (inl (DuplicateKey "slug"), w)
           else (inr (Some t'), setTracks (pre ++ t' :: post) w)
       end.

(** The first [required] string path of the schema that is empty. *)
Definition missingPath (t : Track.t) : option string :=
  if negb (truthy (Track.id t)) then Some "id"
  else if negb (truthy (Track.title t)) then Some "title"
  else if negb (truthy (Track.artist t)) then Some "artist"
  else if negb (truthy (Track.slug t)) then Some "slug"
  else if negb (truthy (Track.createdAt t)) then Some "createdAt"
  else if negb (truthy (Track.updatedAt t)) then Some "updatedAt"
  else None.

(** [TrackModel.create(doc)]: schema validation, then the insert, which
    the unique indexes on [id] and [slug] may reject. *)
Definition TrackModel_create (t : Track.t) : M Track.t :=
  λ w, match missingPath t with
       | Some p => (inl (ValidationError p), w)
       | None =>
           if bool_decide (Track.id t ∈ ids (tracks w))
           then (inl (DuplicateKey "id"), w)
           else if bool_decide (Track.slug t ∈ slugs (tracks w))
           then (inl (DuplicateKey "slug"), w)
           else (inr t, setTracks (tracks w ++ [t]) w)
       end.

(** ** The media host *)

(** [process.env.CLOUDINARY_FOLDER || 'tracks']. *)
Definition folderOf (w : World) : string :=
  match cloudinaryFolder w with
  | Some f => if truthy f then f else "tracks"
  | None => "tracks"
  end.

Definition folderName : M string := λ w, (inr (folderOf w), w).

(** [`${folder}/${id}`], the key of a track's audio on the media host. *)
Definition publicIdOf (w : World) (id : string) : string :=
  folderOf w +:+ "/" +:+ id.

(** [cloudinary.uploader.destroy(publicId, ...)]: the object, if the host
    holds one under that key, is gone afterwards. *)
Definition cloudinary_destroy (publicId : string) : M unit :=
  λ w, (inr tt, setMedia (media w ∖ {[publicId]}) w).

(** ** The repository *)

(** [Date.now().toString()]: the decimal digits of the clock reading. *)
Definition freshId : M string := ms ← dateNow; mret (pretty ms).

Definition createTrack (track : TrackInput.t) : M Track.t :=
  id ← freshId;
  now ← laterISOString;
  TrackModel_create
    (Track.mk id
       (TrackInput.title track)
       (TrackInput.artist track)
       (default "" (TrackInput.album track))
       (default [] (TrackInput.genres track))
       (default "" (TrackInput.coverImage track))
       (default "" (TrackInput.audioFile track))
       (TrackInput.slug track)
       now now).

(** [{ ...updates, updatedAt: now }]. *)
Definition withUpdatedAt (now : string) (u : Partial.t) : Partial.t :=
  Partial.mk (Partial.id u) (Partial.title u) (Partial.artist u)
    (Partial.album u) (Partial.genres u) (Partial.coverImage u)
    (Partial.audioFile u) (Partial.slug u) (Partial.createdAt u) (Some now).

Definition updateTrack (id : string) (updates : Partial.t)
  : M (option Track.t) :=
  now ← nowISOString;
  TrackModel_findOneAndUpdate id (withUpdatedAt now updates).

Definition getTrackBySlug (slug : string) : M (option Track.t) :=
  TrackModel_findOne (bySlug slug).

Definition getTrackById (id : string) : M (option Track.t) :=
  TrackModel_findOne (byId id).

(** [{ audioFile: '' }]. *)
Definition clearAudioFile : Partial.t :=
  Partial.mk None None None None None None (Some "") None None None.

Definition deleteAudioFile (id : string) : M bool :=
  track ← getTrackById id;
  match track with
  | None => mret false
  | Some t =>
      if negb (truthy (Track.audioFile t)) then mret false
      else
        folder ← folderName;
        cloudinary_destroy (folder +:+ "/" +:+ id);;
        updateTrack id clearAudioFile;;
        mret true
  end.

Definition deleteTrack (id : string) : M bool :=
  track ← TrackModel_findOneAndDelete id;
  match track with
  | None => mret false
  | Some t =>
      (if truthy (Track.audioFile t)
       then deleteAudioFile id;; mret tt
       else mret tt);;
      mret true
  end.

(** [results.success.push(id)] and [results.failed.push(id)]. *)
Definition pushSuccess (id : string) (r : BatchDeleteResponse.t)
  : BatchDeleteResponse.t :=
  BatchDeleteResponse.mk (BatchDeleteResponse.success r ++ [id])
                         (BatchDeleteResponse.failed r).

Definition pushFailed (id : string) (r : BatchDeleteResponse.t)
  : BatchDeleteResponse.t :=
  BatchDeleteResponse.mk (BatchDeleteResponse.success r)
                         (BatchDeleteResponse.failed r ++ [id]).

(** The [for (const id of ids)] loop, with [results] as it stands. *)
Fixpoint deleteLoop (l : list string) (results : BatchDeleteResponse.t)
  : M BatchDeleteResponse.t :=
  match l with
  | [] => mret results
  | id :: rest =>
      deleted ← deleteTrack id;
      deleteLoop rest
        (if deleted : bool then pushSuccess id results
         else pushFailed id results)
  end.

Definition deleteMultipleTracks (l : list string) : M BatchDeleteResponse.t :=
  deleteLoop l (BatchDeleteResponse.mk [] []).

(** [getGenres]. *)
Definition getGenres : M (list string) :=
  mret ["Rock"; "Pop"; "Hip Hop"; "Jazz"; "Classical"; "Electronic";
        "R&B"; "Country"; "Folk"; "Reggae"; "Metal"; "Blues"; "Indie"].

(** ** Queries *)

(** The value found in a document under a path name. Only the ten paths
    of the schema are modelled; any other name finds nothing. *)
Inductive Value : Type :=
| VMissing
| VString (s : string)
| VArray (l : list string).

Definition getPath (path : string) (t : Track.t) : Value :=
  match path with
  | "id" => VString (Track.id t)
  | "title" => VString (Track.title t)
  | "artist" => VString (Track.artist t)
  | "album" => VString (Track.album t)
  | "genres" => VArray (Track.genres t)
  | "coverImage" => VString (Track.coverImage t)
  | "audioFile" => VString (Track.audioFile t)
  | "slug" => VString (Track.slug t)
  | "createdAt" => VString (Track.createdAt t)
  | "updatedAt" => VString (Track.updatedAt t)
  | _ => VMissing
  end.

(** What the collection compares when it sorts on a path: a missing path
    counts as null, an array is represented by its least element in an
    ascending sort and by its greatest in a descending one, and an empty
    array sorts below null. Strings compare byte by byte. *)
Inductive SortKey : Type :=
| KEmpty
| KNull
| KString (s : string).

#[global] Instance SortKey_eq_dec : EqDecision SortKey.
Proof. solve_decision. Defined.

Definition keyLeb (a b : SortKey) : bool :=
  match a, b with
  | KEmpty, _ => true
  | KNull, KEmpty => false
  | KNull, _ => true
  | KString x, KString y => String.leb x y
  | KString _, _ => false
  end.

Definition pick (better : string → string → bool) (l : list string)
  : option string :=
  foldr (λ s acc, match acc with
                  | None => Some s
                  | Some m => Some (if better s m then s else m)
                  end) None l.

Definition least : list string → option string := pick String.leb.
Definition greatest : list string → option string :=
  pick (λ a b, String.leb b a).

Definition sortKey (dir : Z) (v : Value) : SortKey :=
  match v with
  | VMissing => KNull
  | VString s => KString s
  | VArray l =>
      match (if dir =? 1 then least l else greatest l) with
      | None => KEmpty
      | Some s => KString s
      end
  end.

Definition keyOf (path : string) (dir : Z) (t : Track.t) : SortKey :=
  sortKey dir (getPath path t).

(** [a] may precede [b] in a sort on [path] in direction [dir]
    ([1] ascending, [-1] descending). *)
Definition precedes (path : string) (dir : Z) (a b : Track.t) : bool :=
  if dir =? 1 then keyLeb (keyOf path dir a) (keyOf path dir b)
  else keyLeb (keyOf path dir b) (keyOf path dir a).

(** Documents with equal keys keep their natural order. *)
Fixpoint insertBy {A : Type} (le : A → A → bool) (x : A) (l : list A)
  : list A :=
  match l with
  | [] => [x]
  | y :: l' => if le x y then x :: y :: l' else y :: insertBy le x l'
  end.

Definition sortBy {A : Type} (le : A → A → bool) (l : list A) : list A :=
  foldr (insertBy le) [] l.

(** [.sort({ [path]: dir })]. *)
Definition cursor_sort (path : string) (dir : Z) (l : list Track.t)
  : list Track.t :=
  sortBy (precedes path dir) l.

(** A sort key must be a well-formed field path: the collection refuses
    the empty name, a path with an empty component (a leading, trailing
    or doubled dot), a component that starts with a dollar sign, and a
    name that contains the NUL character. *)
Fixpoint components (s : string) : list string :=
  match s with
  | EmptyString => [EmptyString]
  | String c s' =>
      match components s' with
      | [] => [String c EmptyString]
      | h :: t =>
          if String.eqb (String c "") "." then EmptyString :: h :: t
          else String c h :: t
      end
  end.

Definition componentAccepted (c : string) : bool :=
  match c with
  | EmptyString => false
  | String a _ => negb (String.eqb (String a "") "$")
  end.

Fixpoint noNul (s : string) : bool :=
  match s with
  | EmptyString => true
  | String c s' => negb (Ascii.eqb c Ascii.zero) && noNul s'
  end.

Definition sortPathAccepted (path : string) : bool :=
  forallb componentAccepted (components path) && noNul path.

(** [.skip(n)]: the collection rejects a negative count. *)
Definition cursor_skip (n : Z) (l : list Track.t) : Error + list Track.t :=
  if n <? 0 then inl NegativeSkip else inr (drop (Z.to_nat n) l).

(** [.limit(n)]: zero means no limit, and a negative count is taken by
    its absolute value. *)
Definition cursor_limit (n : Z) (l : list Track.t) : list Track.t :=
  if n =? 0 then l else take (Z.to_nat (Z.abs n)) l.

(** The filter document [getTracks] builds: the three keys it may set. *)
Module Filter.
Record t : Type := mk {
  or : option string;
  genres : option string;
  artist : option string
}.
End Filter.

(** A pattern matcher for patterns made of plain characters only:
    containment, letters compared without regard to case. *)
Definition lowerAscii (c : Ascii.ascii) : Ascii.ascii :=
  let n := Ascii.N_of_ascii c in
  if ((65 <=? n) && (n <=? 90))%N then Ascii.ascii_of_N (n + 32) else c.

Fixpoint lowerCase (s : string) : string :=
  match s with
  | EmptyString => EmptyString
  | String c s' => String (lowerAscii c) (lowerCase s')
  end.

Fixpoint contains (p s : string) : bool :=
  String.prefix p s ||
  match s with
  | EmptyString => false
  | String _ s' => contains p s'
  end.

Definition plainTest (pattern subject : string) : bool :=
  contains (lowerCase pattern) (lowerCase subject).

(** The patterns [plainTest] is for: letters, digits and spaces only. *)
Definition plainAscii (c : Ascii.ascii) : bool :=
  let n := Ascii.N_of_ascii c in
  (((48 <=? n) && (n <=? 57)) || ((65 <=? n) && (n <=? 90))
   || ((97 <=? n) && (n <=? 122)) || (n =? 32))%N.

Fixpoint plainValid (pattern : string) : bool :=
  match pattern with
  | EmptyString => true
  | String c s' => plainAscii c && plainValid s'
  end.

Section Query.
(** Whether [new RegExp(pattern, 'i')] gives a regular expression: it
    throws a SyntaxError on a pattern that is not one. *)
Variable regexValid : string → bool.

(** [new RegExp(pattern, 'i')] tested against a string: the host's
    pattern matcher, case-insensitive flag set. *)
Variable regexTest : string → string → bool.

(** [new RegExp(pattern, 'i')], for its failure. *)
Definition newRegExp (pattern : string) : M unit :=
  λ w, if regexValid pattern then (inr tt, w)
       else (inl (SyntaxError pattern), w).

(** [if (search) ...; if (genre) ...; if (artist) ...]. *)
Definition buildFilter (search : string) (genre artist : option string)
  : Filter.t :=
  Filter.mk (if truthy search then Some search else None)
            (if truthy_opt genre then genre else None)
            (if truthy_opt artist then artist else None).

(** A document satisfies the filter when it satisfies every key set in
    it: [$or] over title, artist and album; [genres] holding the genre;
    [artist] matching the pattern. *)
Definition matches (f : Filter.t) (t : Track.t) : bool :=
  match Filter.or f with
  | None => true
  | Some p =>
      regexTest p (Track.title t) || regexTest p (Track.artist t)
      || regexTest p (Track.album t)
  end
  && match Filter.genres f with
     | None => true
     | Some g => bool_decide (g ∈ Track.genres t)
     end
  && match Filter.artist f with
     | None => true
     | Some p => regexTest p (Track.artist t)
     end.

(** [TrackModel.countDocuments(filter)]. *)
Definition TrackModel_countDocuments (f : Filter.t) : M nat :=
  λ w, (inr (length (List.filter (matches f) (tracks w))), w).

(** [TrackModel.find(filter).sort(..).skip(..).limit(..).lean()]. *)
Definition TrackModel_find (f : Filter.t) (path : string) (dir : Z)
    (skip limit : Z) : M (list Track.t) :=
  λ w, if negb (sortPathAccepted path) then (inl (BadSortPath path), w)
       else
         match cursor_skip skip
                 (cursor_sort path dir (List.filter (matches f) (tracks w)))
         with
         | inl e => (inl e, w)
         | inr l => (inr (cursor_limit limit l), w)
         end.

(** [order === 'asc' ? 1 : -1]. *)
Definition direction (order : string) : Z :=
  if bool_decide (order = "asc") then 1 else -1.

Definition getTracks (params : QueryParams.t) : M TracksPage.t :=
  let search := default "" (QueryParams.search params) in
  let genre := QueryParams.genre params in
  let artist := QueryParams.artist params in
  let sort := default "createdAt" (QueryParams.sort params) in
  let order := default "desc" (QueryParams.order params) in
  let page := default 1 (QueryParams.page params) in
  let limit := default 10 (QueryParams.limit params) in
  (if truthy search then newRegExp search else mret tt);;
  (if truthy_opt artist then newRegExp (default "" artist) else mret tt);;
  let filter := buildFilter search genre artist in
  total ← TrackModel_countDocuments filter;
  tracks ← TrackModel_find filter sort (direction order)
             ((page - 1) * limit) limit;
  mret (TracksPage.mk tracks total).

(** The patterns a query makes [getTracks] compile are regular
    expressions: [search] and [artist], each when non-empty. *)
Definition patternsValid (params : QueryParams.t) : bool :=
  (if truthy (default "" (QueryParams.search params))
   then regexValid (default "" (QueryParams.search params)) else true)
  && (if truthy_opt (QueryParams.artist params)
      then regexValid (default "" (QueryParams.artist params)) else true).
End Query.

(** ** The store invariant *)

(** The unique indexes: no two documents share an [id] or a [slug]. *)
Definition wfStore (w : World) : Prop :=
  NoDup (ids (tracks w)) ∧ NoDup (slugs (tracks w)).

#[global] Instance wfStore_dec w : Decision (wfStore w).
Proof. unfold wfStore. apply _. Defined.

(** ** Sortedness of a page *)

(** Along the list, keys never decrease (ascending) or never increase
    (descending), each document compared with the next. *)
Definition ascending (path : string) (l : list Track.t) : Prop :=
  Sorted (λ a b, keyLeb (keyOf path 1 a) (keyOf path 1 b) = true) l.

Definition descending (path : string) (l : list Track.t) : Prop :=
  Sorted (λ a b, keyLeb (keyOf path (-1) b) (keyOf path (-1) a) = true) l.

(** ** The page as the specification words it *)

Section QuerySpec.
Variable regexTest : string → string → bool.

(** The records matching the query's filter, before pagination, in the
    order of the query's sort. *)
Definition matchingSorted (q : QueryParams.t) (w : World) : list Track.t :=
  cursor_sort (default "createdAt" (QueryParams.sort q))
    (direction (default "desc" (QueryParams.order q)))
    (List.filter
       (matches regexTest
          (buildFilter (default "" (QueryParams.search q))
             (QueryParams.genre q) (QueryParams.artist q)))
       (tracks w)).

(** "Skip (page−1)×limit records and take at most limit records, with
    page defaulting to 1 and limit to 10; total is the number of matches
    before pagination." *)
Definition pageBySpec (q : QueryParams.t) (w : World) : TracksPage.t :=
  let page := default 1 (QueryParams.page q) in
  let limit := default 10 (QueryParams.limit q) in
  TracksPage.mk
    (take (Z.to_nat limit)
       (drop (Z.to_nat ((page - 1) * limit)) (matchingSorted q w)))
    (length (matchingSorted q w)).
End QuerySpec.

(** ** Sample data *)

Definition songTrack : Track.t :=
  Track.mk "1" "Song" "Ann" "" ["Rock"] ""
    "https://media.example/tracks/1.mp3" "song"
    "2020-09-13T12:26:40.000Z" "2020-09-13T12:26:40.000Z".

Definition tuneTrack : Track.t :=
  Track.mk "2" "Tune" "Bob" "Blue" ["Pop"; "Jazz"] "" "" "tune"
    "2021-05-03T10:00:00.000Z" "2021-05-03T10:00:00.000Z".

Definition sampleWorld : World :=
  mkWorld [songTrack; tuneTrack] {["tracks/1"]} 1700000000000 None 0.

Definition firstInput : TrackInput.t :=
  TrackInput.mk "Alpha" "Ann" None None None None "alpha".

Definition secondInput : TrackInput.t :=
  TrackInput.mk "Beta" "Bob" None None None None "beta".

(** [{ id: '7' }]. *)
Definition renumber : Partial.t :=
  Partial.mk (Some "7") None None None None None None None None None.

(** [{ title: 'Hymn' }]. *)
Definition retitle : Partial.t :=
  Partial.mk None (Some "Hymn") None None None None None None None None.

(** [{ limit: 0 }]. *)
Definition limitZero : QueryParams.t :=
  QueryParams.mk None None None None None None (Some 0).

(** [{ page: 2, limit: 1, sort: 'title', order: 'asc' }]. *)
Definition secondPage : QueryParams.t :=
  QueryParams.mk None None None (Some "title") (Some "asc") (Some 2) (Some 1).

(** [{ sort: 'title', order: 'ascending' }]. *)
Definition oddOrder : QueryParams.t :=
  QueryParams.mk None None None (Some "title") (Some "ascending") None None.

(** ** Uploading audio *)

Section Upload.
(** The media host's answer to the upload of a buffer under a key: the
    result's [secure_url] when it stores the object, nothing when it
    reports an error. *)
Variable uploadAnswer : string → list Byte.byte → option string.

(** [cloudinary.uploader.upload_stream({ folder, public_id, ... }, cb)]
    fed with the buffer. With a result the object is stored under
    [folder/public_id] and [result.secure_url] is resolved to; otherwise
    the promise is rejected with the host's error. *)
Definition cloudinary_upload_stream (folder publicId : string)
    (buffer : list Byte.byte) : M string :=
  λ w, match uploadAnswer (folder +:+ "/" +:+ publicId) buffer with
       | Some url =>
           (inr url, setMedia ({[folder +:+ "/" +:+ publicId]} ∪ media w) w)
       | None => (inl UploadFailed, w)
       end.

Definition saveAudioFile (id fileName : string) (buffer : list Byte.byte)
  : M string :=
  folder ← folderName;
  cloudinary_upload_stream folder id buffer.
End Upload.

(** ** More sample data *)

(** A collection whose only record has no audio. *)
Definition quietWorld : World :=
  mkWorld [tuneTrack] ∅ 1700000000000 None 0.

(** The sample world with a clock that moves on by two milliseconds
    between the readings of one call. *)
Definition slowWorld : World :=
  mkWorld [songTrack; tuneTrack] {["tracks/1"]} 1700000000000 None 2.

(** [{ sort: '' }]. *)
Definition emptySort : QueryParams.t :=
  QueryParams.mk None None None (Some "") None None None.

(** A media host that stores every upload and answers with the URL of
    the key, and one that refuses every upload. *)
Definition acceptingHost (key : string) (buffer : list Byte.byte)
  : option string :=
  Some ("https://media.example/" +:+ key).

Definition refusingHost (key : string) (buffer : list Byte.byte)
  : option string :=
  None.

(** [{ slug: 'tune' }], the slug of another record. *)
Definition reslug : Partial.t :=
  Partial.mk None None None None None None None (Some "tune") None None.

(** An input whose slug is taken in the sample world. *)
Definition takenSlugInput : TrackInput.t :=
  TrackInput.mk "Gamma" "Cy" None None None None "song".

(** [{ genre: 'Pop', page: 1, limit: 1 }]. *)
Definition popQuery : QueryParams.t :=
  QueryParams.mk None (Some "Pop") None None None (Some 1) (Some 1).

(** [{ page: 5, limit: 3 }]. *)
Definition farPage : QueryParams.t :=
  QueryParams.mk None None None None None (Some 5) (Some 3).

(** * Properties *)

(** ** Running computations *)

Ltac run :=
  unfold mbind, M_bind, mret, M_ret; simpl.

Lemma bind_resolved {A B : Type} (c : M A) (k : A → M B) (w w' : World) (a : A) :
  c w = (inr a, w') → (c ≫= k) w = k a w'.
Proof. intros H. unfold mbind, M_bind. by rewrite H. Qed.

Lemma bind_rejected {A B : Type} (c : M A) (k : A → M B) (w w' : World) (e : Error) :
  c w = (inl e, w') → (c ≫= k) w = (inl e, w').
Proof. intros H. unfold mbind, M_bind. by rewrite H. Qed.

(** ** Locating a document *)

Lemma locate_Some (p : Track.t → bool) (l pre post : list Track.t) (t : Track.t) :
  locate p l = Some (pre, t, post) →
  l = pre ++ t :: post ∧ p t = true ∧ Forall (λ x, p x = false) pre.
Proof.
  revert pre. induction l as [|x l IH]; intros pre H; simpl in H; [done|].
  destruct (p x) eqn:Hx.
  - inversion H; subst. by repeat split.
  - destruct (locate p l) as [[[pre' t'] post']|] eqn:Hl; [|done].
    inversion H; subst. destruct (IH pre' eq_refl) as (-> & Ht & Hpre).
    repeat split; [done|]. by constructor.
Qed.

Lemma locate_None (p : Track.t → bool) (l : list Track.t) :
  locate p l = None ↔ Forall (λ x, p x = false) l.
Proof.
  induction l as [|x l IH]; simpl.
  - split; [constructor|done].
  - destruct (p x) eqn:Hx.
    + split; [done|]. inversion 1; congruence.
    + destruct (locate p l) as [[[pre t] post]|].
      * split; [done|]. inversion 1; subst. exfalso. by apply IH in H3.
      * split; [|done]. intros _. constructor; [done|]. by apply IH.
Qed.

Lemma locate_skip (p : Track.t → bool) (pre post : list Track.t) (t : Track.t) :
  Forall (λ x, p x = false) pre → p t = true →
  locate p (pre ++ t :: post) = Some (pre, t, post).
Proof.
  induction 1 as [|x pre Hx _ IH]; intros Ht; simpl.
  - by rewrite Ht.
  - by rewrite Hx, IH.
Qed.

Lemma find_locate (p : Track.t → bool) (l : list Track.t) :
  List.find p l = (λ r, r.1.2) <$> locate p l.
Proof.
  induction l as [|x l IH]; simpl; [done|].
  destruct (p x); [done|]. rewrite IH.
  by destruct (locate p l) as [[[? ?] ?]|].
Qed.

Lemma byId_true (i : string) (t : Track.t) : byId i t = true ↔ Track.id t = i.
Proof. unfold byId. apply bool_decide_eq_true. Qed.

Lemma byId_false (i : string) (t : Track.t) : byId i t = false ↔ Track.id t ≠ i.
Proof. unfold byId. apply bool_decide_eq_false. Qed.

Lemma bySlug_false (s : string) (t : Track.t) :
  bySlug s t = false ↔ Track.slug t ≠ s.
Proof. unfold bySlug. apply bool_decide_eq_false. Qed.

Lemma none_byId (i : string) (l : list Track.t) :
  Forall (λ x, byId i x = false) l ↔ i ∉ ids l.
Proof.
  unfold ids. rewrite Forall_forall, list_elem_of_fmap. split.
  - intros H (t & -> & Ht). specialize (H t Ht). by apply byId_false in H.
  - intros H t Ht. apply byId_false. intros <-. apply H. eauto.
Qed.

Lemma none_bySlug (s : string) (l : list Track.t) :
  Forall (λ x, bySlug s x = false) l ↔ s ∉ slugs l.
Proof.
  unfold slugs. rewrite Forall_forall, list_elem_of_fmap. split.
  - intros H (t & -> & Ht). specialize (H t Ht). by apply bySlug_false in H.
  - intros H t Ht. apply bySlug_false. intros <-. apply H. eauto.
Qed.

Lemma locate_absent (i : string) (l : list Track.t) :
  i ∉ ids l → locate (byId i) l = None.
Proof. intros H. by apply locate_None, none_byId. Qed.

Lemma locate_present (i : string) (l : list Track.t) :
  i ∈ ids l → ∃ pre t post, locate (byId i) l = Some (pre, t, post).
Proof.
  intros H. destruct (locate (byId i) l) as [[[pre t] post]|] eqn:E; [eauto|].
  apply locate_None, none_byId in E. done.
Qed.

Lemma find_absent (p : Track.t → bool) (l : list Track.t) :
  Forall (λ x, p x = false) l → List.find p l = None.
Proof. intros H. rewrite find_locate. apply locate_None in H. by rewrite H. Qed.

(** In a collection with unique ids, the located document is the only one
    with its id. *)
Lemma located_unique (i : string) (l pre post : list Track.t) (t : Track.t) :
  NoDup (ids l) → locate (byId i) l = Some (pre, t, post) →
  i ∉ ids (pre ++ post).
Proof.
  intros Hnd H. apply locate_Some in H as (-> & Ht & Hpre).
  apply byId_true in Ht. unfold ids in *.
  rewrite fmap_app, fmap_cons, Ht in Hnd.
  apply NoDup_app in Hnd as (_ & Hdisj & Hpost).
  apply NoDup_cons in Hpost as [Hi _].
  rewrite fmap_app, elem_of_app. intros [Hin|Hin]; [|done].
  apply (Hdisj _ Hin). by left.
Qed.

(** ** Single-record operations, step by step *)

Lemma truthy_false (s : string) : truthy s = false ↔ s = "".
Proof. destruct s; simpl; split; congruence. Qed.

Lemma truthy_true (s : string) : truthy s = true ↔ s ≠ "".
Proof. destruct s; simpl; split; congruence. Qed.

Lemma collides_same (x : string) (others : list string) :
  collides x x others = false.
Proof. unfold collides. by rewrite bool_decide_eq_false_2 by tauto. Qed.

Lemma getTrackById_run (i : string) (w : World) :
  getTrackById i w = (inr (List.find (byId i) (tracks w)), w).
Proof. reflexivity. Qed.

Lemma getTrackBySlug_run (s : string) (w : World) :
  getTrackBySlug s w = (inr (List.find (bySlug s) (tracks w)), w).
Proof. reflexivity. Qed.

(** [deleteAudioFile] never rejects: its update writes neither [id] nor
    [slug], so no index can refuse it. *)
Lemma deleteAudioFile_run (i : string) (w : World) :
  deleteAudioFile i w =
  match locate (byId i) (tracks w) with
  | Some (pre, t, post) =>
      if truthy (Track.audioFile t)
      then (inr true,
            setTracks
              (pre ++ applySet (withUpdatedAt (toISOString (clock w))
                                  clearAudioFile) t :: post)
              (setMedia (media w ∖ {[publicIdOf w i]}) w))
      else (inr false, w)
  | None => (inr false, w)
  end.
Proof.
  unfold deleteAudioFile. run. unfold getTrackById, TrackModel_findOne.
  rewrite find_locate.
  destruct (locate (byId i) (tracks w)) as [[[pre t] post]|] eqn:E; simpl;
    [|done].
  destruct (truthy (Track.audioFile t)); simpl; [|done].
  unfold folderName, cloudinary_destroy, updateTrack, nowISOString. run.
  unfold TrackModel_findOneAndUpdate. simpl. rewrite E. simpl.
  by rewrite !collides_same.
Qed.

Lemma deleteTrack_run (i : string) (w : World) :
  deleteTrack i w =
  match locate (byId i) (tracks w) with
  | Some (pre, t, post) =>
      if truthy (Track.audioFile t)
      then (inr true, (deleteAudioFile i (setTracks (pre ++ post) w)).2)
      else (inr true, setTracks (pre ++ post) w)
  | None => (inr false, w)
  end.
Proof.
  unfold deleteTrack. run. unfold TrackModel_findOneAndDelete.
  destruct (locate (byId i) (tracks w)) as [[[pre t] post]|] eqn:E; [|done].
  destruct (truthy (Track.audioFile t)); [|done].
  rewrite (deleteAudioFile_run i (setTracks (pre ++ post) w)).
  destruct (locate (byId i) (tracks (setTracks (pre ++ post) w)))
    as [[[pre' t'] post']|]; [|done].
  by destruct (truthy (Track.audioFile t')).
Qed.

(** With unique ids the record is gone when [deleteAudioFile] looks for
    it, so the cascade finds nothing to do. *)
Lemma deleteTrack_unique (i : string) (w : World) :
  NoDup (ids (tracks w)) →
  deleteTrack i w =
  match locate (byId i) (tracks w) with
  | Some (pre, t, post) => (inr true, setTracks (pre ++ post) w)
  | None => (inr false, w)
  end.
Proof.
  intros Hnd. rewrite deleteTrack_run.
  destruct (locate (byId i) (tracks w)) as [[[pre t] post]|] eqn:E; [|done].
  destruct (truthy (Track.audioFile t)); [|done].
  rewrite deleteAudioFile_run. simpl.
  by rewrite (locate_absent i (pre ++ post)) by eauto using located_unique.
Qed.

Lemma deleteTrack_found (i : string) (w : World) :
  (deleteTrack i w).1 = inr (bool_decide (i ∈ ids (tracks w))).
Proof.
  rewrite deleteTrack_run.
  destruct (locate (byId i) (tracks w)) as [[[pre t] post]|] eqn:E.
  - apply locate_Some in E as (E & Ht & _). apply byId_true in Ht.
    rewrite bool_decide_eq_true_2.
    + by destruct (truthy (Track.audioFile t)).
    + rewrite E. unfold ids. rewrite fmap_app, fmap_cons, Ht.
      apply elem_of_app. right. by left.
  - apply locate_None, none_byId in E. by rewrite bool_decide_eq_false_2.
Qed.

(** Deleting changes the ids of the collection by removing the first
    occurrence of the id, and nothing else. *)
Lemma deleteTrack_ids (i : string) (w : World) :
  ids (tracks (deleteTrack i w).2) =
  match locate (byId i) (tracks w) with
  | Some (pre, _, post) => ids (pre ++ post)
  | None => ids (tracks w)
  end.
Proof.
  rewrite deleteTrack_run.
  destruct (locate (byId i) (tracks w)) as [[[pre t] post]|] eqn:E; [|done].
  destruct (truthy (Track.audioFile t)); [|done].
  rewrite deleteAudioFile_run. simpl.
  destruct (locate (byId i) (pre ++ post)) as [[[pre' t'] post']|] eqn:E';
    [|done].
  destruct (truthy (Track.audioFile t')); [|done]. simpl.
  apply locate_Some in E' as (-> & _ & _).
  unfold ids. by rewrite !fmap_app, !fmap_cons.
Qed.

(** ** Cascade on delete *)

(** C1, as the code behaves. [deleteTrack] removes the record first; the
    cascade then calls [deleteAudioFile], which looks the record up again,
    finds none and returns without calling the media host. So for a stored
    track with a non-empty [audioFile] (ids being unique), [deleteTrack]
    resolves to [true], the record is gone, and the media store is exactly
    what it was: the media object is not deleted. *)
Theorem deleteTrack_keeps_media (i : string) (t : Track.t) (w : World) :
  NoDup (ids (tracks w)) →
  List.find (byId i) (tracks w) = Some t →
  Track.audioFile t ≠ "" →
  ∃ w', deleteTrack i w = (inr true, w')
        ∧ (i ∉ ids (tracks w'))
        ∧ media w' = media w.
Proof.
  intros Hnd Hfind _. rewrite deleteTrack_unique by done.
  rewrite find_locate in Hfind.
  destruct (locate (byId i) (tracks w)) as [[[pre t0] post]|] eqn:E; [|done].
  eexists. split; [reflexivity|]. split; [|done].
  simpl. eauto using located_unique.
Qed.

Lemma deleteTrack_keeps_media_witness :
  ∃ w', deleteTrack "1" sampleWorld = (inr true, w')
        ∧ ("1" ∉ ids (tracks w'))
        ∧ media w' = media sampleWorld.
Proof.
  apply (deleteTrack_keeps_media "1" songTrack sampleWorld).
  - compute_done.
  - reflexivity.
  - discriminate.
Defined.

(** The sample world after [deleteTrack "1"]: the record is gone and its
    audio is still on the media host. *)
Example deleteTrack_orphans_audio :
  (deleteTrack "1" sampleWorld).1 = inr true
  ∧ tracks (deleteTrack "1" sampleWorld).2 = [tuneTrack]
  ∧ publicIdOf sampleWorld "1" ∈ media (deleteTrack "1" sampleWorld).2.
Proof. split; [reflexivity|]. split; [reflexivity|]. compute_done. Qed.

(** ** Deleting the audio of a track *)

(** C7. [deleteAudioFile id] resolves to [false] and leaves the world as
    it is when no track has that id or the track's [audioFile] is empty.
    Otherwise it resolves to [true]; the media store has lost the object
    under the track's public id; and the track, read again by id, is the
    old one with [audioFile] empty (and [updatedAt] refreshed), no record
    having been added or removed. *)
Theorem deleteAudioFile_spec (i : string) (w : World) :
  match List.find (byId i) (tracks w) with
  | None => deleteAudioFile i w = (inr false, w)
  | Some t =>
      if decide (Track.audioFile t = "")
      then deleteAudioFile i w = (inr false, w)
      else ∃ w' t',
          deleteAudioFile i w = (inr true, w')
          ∧ media w' = media w ∖ {[publicIdOf w i]}
          ∧ (publicIdOf w i ∉ media w')
          ∧ getTrackById i w' = (inr (Some t'), w')
          ∧ t' = applySet (withUpdatedAt (toISOString (clock w))
                             clearAudioFile) t
          ∧ Track.audioFile t' = ""
          ∧ ids (tracks w') = ids (tracks w)
  end.
Proof.
  rewrite deleteAudioFile_run, find_locate.
  destruct (locate (byId i) (tracks w)) as [[[pre t] post]|] eqn:E; simpl;
    [|done].
  destruct (decide (Track.audioFile t = "")) as [Ha|Ha].
  - apply truthy_false in Ha. by rewrite Ha.
  - apply truthy_true in Ha. rewrite Ha.
    apply locate_Some in E as (E & Ht & Hpre).
    eexists _, _. split; [reflexivity|]. simpl.
    split; [done|].
    split; [apply not_elem_of_difference; right; by apply elem_of_singleton|].
    split.
    + rewrite getTrackById_run. simpl. rewrite find_locate.
      rewrite (locate_skip _ pre post); [done|done|].
      apply byId_true. simpl. by apply byId_true.
    + split; [done|]. split; [done|].
      rewrite E. unfold ids. by rewrite !fmap_app, !fmap_cons.
Qed.

(** ** Absent records *)

(** C8. When no record has id [j], [getTrackById j] resolves to nothing
    and [deleteTrack j] to [false]; when no record has slug [s],
    [getTrackBySlug s] resolves to nothing: none of them rejects, and none
    changes the world. And whatever a first [deleteTrack i] does, a second
    one resolves to [false] and changes nothing (ids being unique in the
    collection). *)
Theorem absent_is_a_result (i j s : string) (w : World) :
  j ∉ ids (tracks w) →
  s ∉ slugs (tracks w) →
  NoDup (ids (tracks w)) →
  getTrackById j w = (inr None, w)
  ∧ getTrackBySlug s w = (inr None, w)
  ∧ deleteTrack j w = (inr false, w)
  ∧ ∃ b w1, deleteTrack i w = (inr b, w1)
            ∧ b = bool_decide (i ∈ ids (tracks w))
            ∧ deleteTrack i w1 = (inr false, w1).
Proof.
  intros Hj Hs Hnd. split; [|split; [|split]].
  - rewrite getTrackById_run. by rewrite find_absent by by apply none_byId.
  - rewrite getTrackBySlug_run. by rewrite find_absent by by apply none_bySlug.
  - rewrite deleteTrack_run. by rewrite locate_absent.
  - pose proof (deleteTrack_found i w) as Hb.
    rewrite deleteTrack_unique in * by done.
    destruct (locate (byId i) (tracks w)) as [[[pre t] post]|] eqn:E.
    + eexists _, _. split; [reflexivity|]. split; [by inversion Hb|].
      rewrite deleteTrack_run. simpl.
      by rewrite (locate_absent i (pre ++ post))
        by eauto using located_unique.
    + eexists _, _. split; [reflexivity|]. split; [by inversion Hb|].
      rewrite deleteTrack_run. by rewrite E.
Qed.

Lemma absent_is_a_result_witness :
  getTrackById "9" sampleWorld = (inr None, sampleWorld)
  ∧ getTrackBySlug "nine" sampleWorld = (inr None, sampleWorld)
  ∧ deleteTrack "9" sampleWorld = (inr false, sampleWorld)
  ∧ ∃ b w1, deleteTrack "1" sampleWorld = (inr b, w1)
            ∧ b = bool_decide ("1" ∈ ids (tracks sampleWorld))
            ∧ deleteTrack "1" w1 = (inr false, w1).
Proof.
  apply (absent_is_a_result "1" "9" "nine" sampleWorld); compute_done.
Defined.

(** ** The batch loop *)

Lemma deleteTrack_total (i : string) (w : World) :
  ∃ w1, deleteTrack i w = (inr (bool_decide (i ∈ ids (tracks w))), w1).
Proof.
  exists (deleteTrack i w).2. rewrite <- deleteTrack_found.
  by destruct (deleteTrack i w).
Qed.

(** Results pushed before a run of the loop stay in front of the results
    the run pushes. *)
Lemma deleteLoop_acc (l : list string) (acc : BatchDeleteResponse.t) (w : World) :
  deleteLoop l acc w =
  match deleteLoop l (BatchDeleteResponse.mk [] []) w with
  | (inr r, w') =>
      (inr (BatchDeleteResponse.mk
              (BatchDeleteResponse.success acc ++ BatchDeleteResponse.success r)
              (BatchDeleteResponse.failed acc ++ BatchDeleteResponse.failed r)),
       w')
  | (inl e, w') => (inl e, w')
  end.
Proof.
  revert acc w. induction l as [|i rest IH]; intros acc w; simpl.
  - run. destruct acc. simpl. by rewrite !app_nil_r.
  - destruct (deleteTrack_total i w) as [w1 Hd].
    rewrite !(bind_resolved _ _ _ _ _ Hd).
    rewrite (IH (if bool_decide _ then _ else _)). symmetry.
    rewrite (IH (if bool_decide _ then _ else _)).
    destruct (deleteLoop rest _ w1) as [[e|r] w']; [done|].
    destruct (bool_decide (i ∈ ids (tracks w))); simpl;
      by rewrite <- ?app_assoc.
Qed.

Lemma deleteMultipleTracks_nil (w : World) :
  deleteMultipleTracks [] w = (inr (BatchDeleteResponse.mk [] []), w).
Proof. reflexivity. Qed.

Lemma deleteMultipleTracks_cons (i : string) (rest : list string) (w : World) :
  deleteMultipleTracks (i :: rest) w =
  match deleteTrack i w with
  | (inr b, w1) =>
      match deleteMultipleTracks rest w1 with
      | (inr r, w') =>
          (inr (if b : bool
                then BatchDeleteResponse.mk
                       (i :: BatchDeleteResponse.success r)
                       (BatchDeleteResponse.failed r)
                else BatchDeleteResponse.mk
                       (BatchDeleteResponse.success r)
                       (i :: BatchDeleteResponse.failed r)), w')
      | (inl e, w') => (inl e, w')
      end
  | (inl e, w1) => (inl e, w1)
  end.
Proof.
  unfold deleteMultipleTracks. simpl.
  destruct (deleteTrack_total i w) as [w1 Hd].
  rewrite (bind_resolved _ _ _ _ _ Hd), Hd, deleteLoop_acc.
  destruct (deleteLoop rest _ w1) as [[e|r] w']; [done|].
  by destruct (bool_decide (i ∈ ids (tracks w))).
Qed.

Lemma deleteMultipleTracks_app (l1 l2 : list string) (w : World) :
  deleteMultipleTracks (l1 ++ l2) w =
  match deleteMultipleTracks l1 w with
  | (inr r1, w1) =>
      match deleteMultipleTracks l2 w1 with
      | (inr r2, w2) =>
          (inr (BatchDeleteResponse.mk
                  (BatchDeleteResponse.success r1 ++ BatchDeleteResponse.success r2)
                  (BatchDeleteResponse.failed r1 ++ BatchDeleteResponse.failed r2)),
           w2)
      | (inl e, w2) => (inl e, w2)
      end
  | (inl e, w1) => (inl e, w1)
  end.
Proof.
  revert w. induction l1 as [|i l1 IH]; intros w.
  - rewrite deleteMultipleTracks_nil. simpl.
    by destruct (deleteMultipleTracks l2 w) as [[e|[s f]] w2].
  - simpl. rewrite !deleteMultipleTracks_cons.
    destruct (deleteTrack i w) as [[e|b] w1]; [done|]. rewrite IH.
    destruct (deleteMultipleTracks l1 w1) as [[e|r1] w1']; [done|].
    destruct (deleteMultipleTracks l2 w1') as [[e|r2] w2]; [done|].
    by destruct b.
Qed.

(** The loop runs to the end of its input whatever it meets. *)
Lemma deleteMultipleTracks_total (l : list string) (w : World) :
  ∃ r w', deleteMultipleTracks l w = (inr r, w').
Proof.
  revert w. induction l as [|i rest IH]; intros w.
  - eexists _, _. apply deleteMultipleTracks_nil.
  - rewrite deleteMultipleTracks_cons.
    destruct (deleteTrack_total i w) as [w1 ->].
    destruct (IH w1) as (r & w' & ->). eauto.
Qed.

Lemma deleteMultipleTracks_length (l : list string) (w w' : World)
    (r : BatchDeleteResponse.t) :
  deleteMultipleTracks l w = (inr r, w') →
  (length (BatchDeleteResponse.success r)
   + length (BatchDeleteResponse.failed r))%nat = length l.
Proof.
  revert w w' r. induction l as [|i rest IH]; intros w w' r.
  - rewrite deleteMultipleTracks_nil. by intros [= <- _].
  - rewrite deleteMultipleTracks_cons.
    destruct (deleteTrack_total i w) as [w1 ->].
    destruct (deleteMultipleTracks rest w1) as [[e|r'] w''] eqn:E; [done|].
    intros [= <- _]. apply IH in E.
    destruct (bool_decide _); simpl in *; lia.
Qed.

Lemma deleteMultipleTracks_sublist (l : list string) (w w' : World)
    (r : BatchDeleteResponse.t) :
  deleteMultipleTracks l w = (inr r, w') →
  sublist (BatchDeleteResponse.success r) l
  ∧ sublist (BatchDeleteResponse.failed r) l.
Proof.
  revert w w' r. induction l as [|i rest IH]; intros w w' r.
  - rewrite deleteMultipleTracks_nil. intros [= <- _]. by split.
  - rewrite deleteMultipleTracks_cons.
    destruct (deleteTrack_total i w) as [w1 ->].
    destruct (deleteMultipleTracks rest w1) as [[e|r'] w''] eqn:E; [done|].
    intros [= <- _]. apply IH in E as [Hs Hf].
    destruct (bool_decide _); simpl; split; by constructor.
Qed.

(** What a delete leaves of a collection with unique ids. *)
Lemma deleteTrack_after (i : string) (w w1 : World) (b : bool) :
  NoDup (ids (tracks w)) →
  deleteTrack i w = (inr b, w1) →
  NoDup (ids (tracks w1))
  ∧ (i ∉ ids (tracks w1))
  ∧ ids (tracks w1) ⊆ ids (tracks w).
Proof.
  intros Hnd. rewrite deleteTrack_unique by done.
  destruct (locate (byId i) (tracks w)) as [[[pre t] post]|] eqn:E.
  - intros [= <- <-]. simpl.
    pose proof (located_unique _ _ _ _ _ Hnd E) as Hi.
    apply locate_Some in E as (E & _ & _). rewrite E in Hnd |- *.
    unfold ids in *. rewrite fmap_app, fmap_cons in *.
    split; [|split; [done|]].
    + apply NoDup_app in Hnd as (Hpre & Hdisj & Hpost).
      apply NoDup_cons in Hpost as [_ Hpost].
      apply NoDup_app. repeat split; [done| |done].
      intros x Hx Hx'. apply (Hdisj x Hx). by right.
    + intros x. rewrite ?fmap_app, ?fmap_cons, !elem_of_app, elem_of_cons. tauto.
  - intros [= <- <-]. split; [done|]. split; [|done].
    by apply none_byId, locate_None.
Qed.

Lemma deleteMultipleTracks_after (l : list string) (w w' : World)
    (r : BatchDeleteResponse.t) :
  NoDup (ids (tracks w)) →
  deleteMultipleTracks l w = (inr r, w') →
  NoDup (ids (tracks w'))
  ∧ (∀ j, j ∈ l → j ∉ ids (tracks w'))
  ∧ ids (tracks w') ⊆ ids (tracks w)
  ∧ BatchDeleteResponse.success r ⊆ ids (tracks w)
  ∧ NoDup (BatchDeleteResponse.success r).
Proof.
  revert w w' r. induction l as [|i rest IH]; intros w w' r Hnd.
  - rewrite deleteMultipleTracks_nil. intros [= <- <-]. simpl.
    repeat split; [done| |done| |constructor].
    + intros j Hj. by apply elem_of_nil in Hj.
    + intros j Hj. by apply elem_of_nil in Hj.
  - rewrite deleteMultipleTracks_cons.
    destruct (deleteTrack_total i w) as [w1 Hd]. rewrite Hd.
    destruct (deleteTrack_after _ _ _ _ Hnd Hd) as (Hnd1 & Hi1 & Hsub1).
    destruct (deleteMultipleTracks rest w1) as [[e|r'] w''] eqn:E; [done|].
    intros [= <- <-].
    destruct (IH _ _ _ Hnd1 E) as (Hnd' & Hgone & Hsub & Hsucc & Hnds).
    split; [done|]. split; [|split; [by etrans|]].
    + intros j [->|Hj]%elem_of_cons; [|by apply Hgone].
      intros Hin. by apply Hi1, Hsub.
    + destruct (bool_decide (i ∈ ids (tracks w))) eqn:Hb; simpl.
      * apply bool_decide_eq_true in Hb. split.
        -- intros x [->|Hx]%elem_of_cons; [done|]. by apply Hsub1, Hsucc.
        -- apply NoDup_cons. split; [|done].
           intros Hin. by apply Hi1, Hsucc.
      * split; [by etrans|done].
Qed.

(** C4. [deleteMultipleTracks] always runs to the end of its input and
    resolves. On the empty list it resolves to two empty lists. On
    [i :: rest] it first deletes [i] in the world as it stands: when a
    record with id [i] exists, one such record is removed and [i] comes
    first in [success]; when none exists, the world is left as it is and
    [i] comes first in [failed]; in both cases the rest of the input is
    then processed in the resulting world and supplies the remainder of
    both lists. So each list keeps the order of the input: both are
    subsequences of it. *)
Theorem deleteMultipleTracks_partition (l : list string) (w : World) :
  ∃ r w',
    deleteMultipleTracks l w = (inr r, w')
    ∧ sublist (BatchDeleteResponse.success r) l
    ∧ sublist (BatchDeleteResponse.failed r) l
    ∧ match l with
      | [] => r = BatchDeleteResponse.mk [] [] ∧ w' = w
      | i :: rest =>
          ∃ w1 r',
            deleteTrack i w = (inr (bool_decide (i ∈ ids (tracks w))), w1)
            ∧ deleteMultipleTracks rest w1 = (inr r', w')
            ∧ if bool_decide (i ∈ ids (tracks w))
              then r = BatchDeleteResponse.mk
                         (i :: BatchDeleteResponse.success r')
                         (BatchDeleteResponse.failed r')
                   ∧ ∃ pre t post,
                       tracks w = pre ++ t :: post
                       ∧ Track.id t = i
                       ∧ ids (tracks w1) = ids (pre ++ post)
              else r = BatchDeleteResponse.mk
                         (BatchDeleteResponse.success r')
                         (i :: BatchDeleteResponse.failed r')
                   ∧ w1 = w
      end.
Proof.
  destruct (deleteMultipleTracks_total l w) as (r & w' & Hr).
  exists r, w'. split; [done|].
  destruct (deleteMultipleTracks_sublist _ _ _ _ Hr) as [Hs Hf].
  split; [done|]. split; [done|].
  destruct l as [|i rest].
  - rewrite deleteMultipleTracks_nil in Hr. by inversion Hr.
  - rewrite deleteMultipleTracks_cons in Hr.
    destruct (deleteTrack_total i w) as [w1 Hd]. rewrite Hd in Hr.
    destruct (deleteMultipleTracks rest w1) as [[e|r'] w''] eqn:E; [done|].
    inversion Hr; subst. exists w1, r'. split; [done|]. split; [done|].
    pose proof (deleteTrack_ids i w) as Hids. rewrite Hd in Hids.
    rewrite deleteTrack_run in Hd.
    destruct (bool_decide (i ∈ ids (tracks w))) eqn:Hb; (split; [done|]).
    + destruct (locate (byId i) (tracks w)) as [[[pre t] post]|] eqn:El.
      * apply locate_Some in El as (El & Ht%byId_true & _). eauto 6.
      * done.
    + destruct (locate (byId i) (tracks w)) as [[[pre t] post]|] eqn:El.
      * by destruct (truthy (Track.audioFile t)).
      * by inversion Hd.
Qed.

(** The batch of the specification's example, on the sample world. *)
Example deleteMultipleTracks_sample :
  (deleteMultipleTracks ["1"; "missing"; "2"] sampleWorld).1
  = inr (BatchDeleteResponse.mk ["1"; "2"] ["missing"]).
Proof. reflexivity. Qed.

(** C10. In a collection with unique ids, take an input in which [i]
    occurs again after a first part [l1] that already contains it. That
    later occurrence is placed in [failed] and leaves the world as the
    first part left it: the result is the result of [l1], then [i] in
    [failed], then the result of the remaining input run from there. No
    id occurs twice in [success], and the two lists together are as long
    as the input. *)
Theorem deleteMultipleTracks_repeated (l1 l2 : list string) (i : string)
    (w : World) :
  NoDup (ids (tracks w)) →
  i ∈ l1 →
  ∃ r1 w1 r2 w2 r,
    deleteMultipleTracks l1 w = (inr r1, w1)
    ∧ deleteMultipleTracks l2 w1 = (inr r2, w2)
    ∧ deleteMultipleTracks (l1 ++ i :: l2) w = (inr r, w2)
    ∧ BatchDeleteResponse.success r
      = BatchDeleteResponse.success r1 ++ BatchDeleteResponse.success r2
    ∧ BatchDeleteResponse.failed r
      = BatchDeleteResponse.failed r1 ++ i :: BatchDeleteResponse.failed r2
    ∧ NoDup (BatchDeleteResponse.success r)
    ∧ (length (BatchDeleteResponse.success r)
       + length (BatchDeleteResponse.failed r))%nat
      = length (l1 ++ i :: l2).
Proof.
  intros Hnd Hi.
  destruct (deleteMultipleTracks_total l1 w) as (r1 & w1 & H1).
  destruct (deleteMultipleTracks_total l2 w1) as (r2 & w2 & H2).
  destruct (deleteMultipleTracks_after _ _ _ _ Hnd H1) as (_ & Hgone & _).
  assert (deleteMultipleTracks (l1 ++ i :: l2) w
          = (inr (BatchDeleteResponse.mk
                    (BatchDeleteResponse.success r1
                     ++ BatchDeleteResponse.success r2)
                    (BatchDeleteResponse.failed r1
                     ++ i :: BatchDeleteResponse.failed r2)), w2)) as Hall.
  { rewrite deleteMultipleTracks_app, H1, deleteMultipleTracks_cons.
    rewrite deleteTrack_run, (locate_absent i (tracks w1)) by by apply Hgone.
    by rewrite H2. }
  eexists r1, w1, r2, w2, _. split; [done|]. split; [done|].
  split; [exact Hall|]. split; [done|]. split; [done|]. split.
  - by destruct (deleteMultipleTracks_after _ _ _ _ Hnd Hall) as (_&_&_&_&?).
  - apply (deleteMultipleTracks_length _ _ _ _ Hall).
Qed.

Lemma deleteMultipleTracks_repeated_witness :
  ∃ r1 w1 r2 w2 r,
    deleteMultipleTracks ["1"; "2"] sampleWorld = (inr r1, w1)
    ∧ deleteMultipleTracks ["2"] w1 = (inr r2, w2)
    ∧ deleteMultipleTracks (["1"; "2"] ++ "1" :: ["2"]) sampleWorld
      = (inr r, w2)
    ∧ BatchDeleteResponse.success r
      = BatchDeleteResponse.success r1 ++ BatchDeleteResponse.success r2
    ∧ BatchDeleteResponse.failed r
      = BatchDeleteResponse.failed r1 ++ "1" :: BatchDeleteResponse.failed r2
    ∧ NoDup (BatchDeleteResponse.success r)
    ∧ (length (BatchDeleteResponse.success r)
       + length (BatchDeleteResponse.failed r))%nat
      = length (["1"; "2"] ++ "1" :: ["2"]).
Proof.
  apply (deleteMultipleTracks_repeated ["1"; "2"] ["2"] "1" sampleWorld);
    compute_done.
Defined.

(** The same input, evaluated: both second occurrences fail. *)
Example deleteMultipleTracks_repeated_sample :
  (deleteMultipleTracks ["1"; "2"; "1"; "2"] sampleWorld).1
  = inr (BatchDeleteResponse.mk ["1"; "2"] ["1"; "2"]).
Proof. reflexivity. Qed.

(** ** The unique indexes are kept *)

Section Keys.
Context {K : Type} (key : Track.t → K).

Lemma NoDup_without (pre post : list Track.t) (t : Track.t) :
  NoDup (key <$> pre ++ t :: post) → NoDup (key <$> pre ++ post).
Proof.
  rewrite !fmap_app, fmap_cons. intros (Hpre & Hdisj & Hpost)%NoDup_app.
  apply NoDup_cons in Hpost as [_ Hpost].
  apply NoDup_app. repeat split; [done| |done].
  intros x Hx Hx'. apply (Hdisj x Hx). by right.
Qed.

Lemma NoDup_replaced (pre post : list Track.t) (t t' : Track.t) :
  NoDup (key <$> pre ++ t :: post) →
  key t' = key t ∨ key t' ∉ key <$> pre ++ post →
  NoDup (key <$> pre ++ t' :: post).
Proof.
  intros Hnd [Heq|Hnew].
  - by rewrite fmap_app, fmap_cons, Heq, <- fmap_cons, <- fmap_app.
  - pose proof (NoDup_without _ _ _ Hnd) as Hrest.
    rewrite fmap_app in Hrest, Hnew.
    apply NoDup_app in Hrest as (Hpre & Hdisj & Hpost).
    rewrite fmap_app, fmap_cons. apply NoDup_app. repeat split; [done| |].
    + intros x Hx [->|Hx']%elem_of_cons.
      * apply Hnew, elem_of_app. by left.
      * by apply (Hdisj x).
    + apply NoDup_cons. split; [|done].
      intros Hin. apply Hnew, elem_of_app. by right.
Qed.

Lemma NoDup_appended (l : list Track.t) (t : Track.t) :
  NoDup (key <$> l) → key t ∉ key <$> l → NoDup (key <$> l ++ [t]).
Proof.
  intros Hnd Hnew. rewrite fmap_app. apply NoDup_app.
  repeat split; [done| |apply NoDup_singleton].
  intros x Hx ->%list_elem_of_singleton. done.
Qed.
End Keys.

Lemma collides_false (old new : string) (others : list string) :
  collides old new others = false → new = old ∨ new ∉ others.
Proof.
  unfold collides. intros [H|H]%andb_false_iff.
  - apply bool_decide_eq_false in H. left. by destruct (decide (new = old)).
  - apply bool_decide_eq_false in H. by right.
Qed.

Lemma freshId_run (w : World) : freshId w = (inr (pretty (clock w)), w).
Proof. reflexivity. Qed.

Lemma createTrack_run (track : TrackInput.t) (w : World) :
  createTrack track w =
  TrackModel_create
    (Track.mk (pretty (clock w))
       (TrackInput.title track) (TrackInput.artist track)
       (default "" (TrackInput.album track))
       (default [] (TrackInput.genres track))
       (default "" (TrackInput.coverImage track))
       (default "" (TrackInput.audioFile track))
       (TrackInput.slug track)
       (toISOString (clock w + lag w)) (toISOString (clock w + lag w))) w.
Proof. reflexivity. Qed.

Lemma updateTrack_run (i : string) (u : Partial.t) (w : World) :
  updateTrack i u w =
  TrackModel_findOneAndUpdate i (withUpdatedAt (toISOString (clock w)) u) w.
Proof. reflexivity. Qed.

(** A create either stores the new document last, under the id read off
    the clock and a slug that was free, or stores nothing. *)
Lemma createTrack_cases (track : TrackInput.t) (w : World) :
  (∃ t, createTrack track w = (inr t, setTracks (tracks w ++ [t]) w)
        ∧ Track.id t = pretty (clock w)
        ∧ (Track.id t ∉ ids (tracks w))
        ∧ (Track.slug t ∉ slugs (tracks w)))
  ∨ (∃ e, createTrack track w = (inl e, w)).
Proof.
  rewrite createTrack_run. unfold TrackModel_create.
  destruct (missingPath _); [eauto|].
  case_bool_decide as Hi; [eauto|]. case_bool_decide as Hs; [eauto|].
  left. eexists. by repeat split.
Qed.

Lemma createTrack_wf (track : TrackInput.t) (w : World) :
  wfStore w → wfStore (createTrack track w).2.
Proof.
  intros [Hi Hs].
  destruct (createTrack_cases track w) as [(t & -> & _ & Hid & Hslug)|[e ->]];
    [|done].
  split; simpl; by apply NoDup_appended.
Qed.

Lemma updateTrack_wf (i : string) (u : Partial.t) (w : World) :
  wfStore w → wfStore (updateTrack i u w).2.
Proof.
  intros Hw. rewrite updateTrack_run. unfold TrackModel_findOneAndUpdate.
  destruct (locate (byId i) (tracks w)) as [[[pre t] post]|] eqn:E; [|done].
  apply locate_Some in E as (E & _ & _).
  destruct (collides (Track.id t) _ _) eqn:Ci; [done|].
  destruct (collides (Track.slug t) _ _) eqn:Cs; [done|].
  destruct Hw as [Hi Hs]. rewrite E in Hi, Hs.
  apply collides_false in Ci, Cs.
  split; simpl; by eapply NoDup_replaced.
Qed.

Lemma deleteAudioFile_wf (i : string) (w : World) :
  wfStore w → wfStore (deleteAudioFile i w).2.
Proof.
  intros Hw. rewrite deleteAudioFile_run.
  destruct (locate (byId i) (tracks w)) as [[[pre t] post]|] eqn:E; [|done].
  destruct (truthy (Track.audioFile t)); [|done].
  apply locate_Some in E as (E & _ & _). destruct Hw as [Hi Hs].
  rewrite E in Hi, Hs.
  split; simpl; eapply NoDup_replaced; eauto.
Qed.

Lemma deleteTrack_wf (i : string) (w : World) :
  wfStore w → wfStore (deleteTrack i w).2.
Proof.
  intros [Hi Hs]. rewrite deleteTrack_unique by done.
  destruct (locate (byId i) (tracks w)) as [[[pre t] post]|] eqn:E; [|done].
  apply locate_Some in E as (E & _ & _). rewrite E in Hi, Hs.
  split; simpl; by eapply NoDup_without.
Qed.

Lemma deleteMultipleTracks_wf (l : list string) (w : World) :
  wfStore w → wfStore (deleteMultipleTracks l w).2.
Proof.
  revert w. induction l as [|i rest IH]; intros w Hw; [done|].
  rewrite deleteMultipleTracks_cons.
  pose proof (deleteTrack_wf i w Hw) as H1.
  destruct (deleteTrack i w) as [[e|b] w1]; [done|].
  specialize (IH w1 H1).
  by destruct (deleteMultipleTracks rest w1) as [[e|r] w'].
Qed.

(** ** Fresh ids *)

(** C2, refuted as stated. Two [createTrack] calls with no time passing
    between them read the same clock value and so generate the same id,
    here "1700000000000"; the first call stores its record, the second is
    rejected by the unique index on [id]. *)
Lemma createTrack_same_instant_same_id :
  (freshId sampleWorld).1 = inr "1700000000000"
  ∧ Track.id <$> resolved (createTrack firstInput sampleWorld)
    = Some "1700000000000"
  ∧ (freshId (createTrack firstInput sampleWorld).2).1 = inr "1700000000000"
  ∧ (createTrack secondInput (createTrack firstInput sampleWorld).2).1
    = inl (DuplicateKey "id").
Proof. repeat split. Qed.

(** C2, amended. In a store with unique ids and slugs, let a second
    [createTrack] follow a first one after [d] milliseconds. The id a call
    generates is the decimal form of the clock, so calls at different
    instants ([d ≠ 0]) generate different ids. At the same instant
    ([d = 0]) a second call that follows a successful first one is
    rejected and stores nothing. Either way ids (and slugs) are unique
    across the store after each of the two calls. *)
Theorem createTrack_ids (a b : TrackInput.t) (d : Z) (w : World) :
  wfStore w →
  let r1 := createTrack a w in
  let w1 := advance d r1.2 in
  let r2 := createTrack b w1 in
  (freshId w).1 = inr (pretty (clock w))
  ∧ (freshId w1).1 = inr (pretty (clock w + d))
  ∧ (∀ t, r1.1 = inr t → Track.id t = pretty (clock w))
  ∧ (d ≠ 0 → (freshId w).1 ≠ (freshId w1).1)
  ∧ (d = 0 → is_Some (resolved r1) → ∃ e, r2 = (inl e, w1))
  ∧ wfStore r1.2
  ∧ wfStore r2.2.
Proof.
  intros Hw r1 w1 r2.
  assert (clock w1 = clock w + d) as Hclock.
  { subst w1 r1. simpl.
    by destruct (createTrack_cases a w) as [(t & -> & _)|[e ->]]. }
  assert (wfStore r1.2) as Hw1 by by apply createTrack_wf.
  assert (wfStore w1) as Hw1' by (destruct Hw1; by split).
  split; [done|]. split; [by rewrite freshId_run, Hclock|].
  split; [|split; [|split; [|split; [done|by apply createTrack_wf]]]].
  - intros t Ht. subst r1.
    destruct (createTrack_cases a w) as [(t0 & E & Hid & _)|[e E]];
      rewrite E in Ht; by inversion Ht; subst.
  - intros Hd. rewrite !freshId_run, Hclock. simpl.
    intros [= Heq]. apply (inj pretty) in Heq. lia.
  - intros -> Hsome. subst r2.
    destruct (createTrack_cases b w1) as [(t' & _ & Hid' & Hnew & _)|He];
      [|done].
    exfalso. apply Hnew. subst w1 r1.
    destruct (createTrack_cases a w) as [(t & E & Hid & _)|[e E]];
      rewrite E in *; [|by destruct Hsome].
    simpl in *. rewrite Hid', Z.add_0_r, <- Hid.
    unfold ids. rewrite fmap_app. apply elem_of_app. right. by left.
Qed.

Lemma createTrack_ids_witness :
  let r1 := createTrack firstInput sampleWorld in
  let w1 := advance 0 r1.2 in
  let r2 := createTrack secondInput w1 in
  (freshId sampleWorld).1 = inr (pretty (clock sampleWorld))
  ∧ (freshId w1).1 = inr (pretty (clock sampleWorld + 0))
  ∧ (∀ t, r1.1 = inr t → Track.id t = pretty (clock sampleWorld))
  ∧ (0 ≠ 0 → (freshId sampleWorld).1 ≠ (freshId w1).1)
  ∧ (0 = 0 → is_Some (resolved r1) → ∃ e, r2 = (inl e, w1))
  ∧ wfStore r1.2
  ∧ wfStore r2.2.
Proof.
  apply (createTrack_ids firstInput secondInput 0 sampleWorld). compute_done.
Defined.

(** One millisecond later the second call succeeds, under the next id. *)
Example createTrack_next_instant :
  Track.id <$> resolved
    (createTrack secondInput
       (advance 1 (createTrack firstInput sampleWorld).2))
  = Some "1700000000001".
Proof. reflexivity. Qed.

(** ** Updates and the id *)

(** C3, refuted as stated. An update whose fields contain an [id] writes
    it like any other field: the record that had id "1" has id "7"
    afterwards, and nothing is found under "1" any more. *)
Lemma updateTrack_rewrites_id :
  List.find (byId "1") (tracks sampleWorld) = Some songTrack
  ∧ resolved (updateTrack "1" renumber sampleWorld)
    = Some (Some (Track.mk "7" "Song" "Ann" "" ["Rock"] ""
                    "https://media.example/tracks/1.mp3" "song"
                    "2020-09-13T12:26:40.000Z" "2023-11-14T22:13:20.000Z"))
  ∧ ids (tracks (updateTrack "1" renumber sampleWorld).2) = ["7"; "2"]
  ∧ (getTrackById "1" (updateTrack "1" renumber sampleWorld).2).1 = inr None.
Proof. repeat split. Qed.

(** C3, amended. For an existing track and partial fields that carry no
    [id], or carry the track's own id, [updateTrack] leaves the ids of the
    collection as they are: it either resolves to the merged record, which
    still has the id and is what a later read by that id finds, or is
    rejected by the unique index on [slug] and changes nothing. *)
Theorem updateTrack_keeps_id (i : string) (u : Partial.t) (t : Track.t)
    (w : World) :
  List.find (byId i) (tracks w) = Some t →
  Partial.id u = None ∨ Partial.id u = Some i →
  let t' := applySet (withUpdatedAt (toISOString (clock w)) u) t in
  let r := updateTrack i u w in
  Track.id t' = i
  ∧ ids (tracks r.2) = ids (tracks w)
  ∧ ((r.1 = inr (Some t') ∧ getTrackById i r.2 = (inr (Some t'), r.2))
     ∨ r = (inl (DuplicateKey "slug"), w)).
Proof.
  intros Hfind Hu t' r. rewrite find_locate in Hfind.
  destruct (locate (byId i) (tracks w)) as [[[pre t0] post]|] eqn:E;
    [|done].
  simpl in Hfind. inversion Hfind; subst t0.
  destruct (locate_Some _ _ _ _ _ E) as (El & Ht%byId_true & Hpre).
  assert (Track.id t' = i) as Hid.
  { subst t'. simpl. by destruct Hu as [->| ->]. }
  split; [done|]. subst r. rewrite updateTrack_run.
  unfold TrackModel_findOneAndUpdate. rewrite E. fold t'.
  rewrite Hid, <- Ht, collides_same.
  destruct (collides (Track.slug t) _ _); [split; [done|by right]|].
  simpl. split.
  - rewrite El. unfold ids. rewrite !fmap_app, !fmap_cons.
    by rewrite Hid, Ht.
  - left. split; [done|]. rewrite getTrackById_run. simpl.
    rewrite find_locate, (locate_skip _ pre post); [done|by rewrite Ht|].
    apply byId_true. by rewrite Ht.
Qed.

Lemma updateTrack_keeps_id_witness :
  let t' := applySet (withUpdatedAt (toISOString (clock sampleWorld)) retitle)
              songTrack in
  let r := updateTrack "1" retitle sampleWorld in
  Track.id t' = "1"
  ∧ ids (tracks r.2) = ids (tracks sampleWorld)
  ∧ ((r.1 = inr (Some t') ∧ getTrackById "1" r.2 = (inr (Some t'), r.2))
     ∨ r = (inl (DuplicateKey "slug"), sampleWorld)).
Proof.
  apply (updateTrack_keeps_id "1" retitle songTrack sampleWorld).
  - reflexivity.
  - left. reflexivity.
Defined.

(** ** Sorting *)

Lemma keyLeb_total (a b : SortKey) : keyLeb a b = true ∨ keyLeb b a = true.
Proof.
  destruct a, b; simpl; auto. apply String.leb_total.
Qed.

Lemma precedes_total (path : string) (dir : Z) (a b : Track.t) :
  precedes path dir a b = true ∨ precedes path dir b a = true.
Proof. unfold precedes. destruct (dir =? 1); apply keyLeb_total. Qed.

Section Sorting.
Context {A : Type} (le : A → A → bool).
Hypothesis le_total : ∀ a b, le a b = true ∨ le b a = true.

Lemma insertBy_perm (x : A) (l : list A) : insertBy le x l ≡ₚ x :: l.
Proof.
  induction l as [|y l IH]; simpl; [done|].
  destruct (le x y); [done|]. rewrite IH. apply Permutation_swap.
Qed.

Lemma sortBy_perm (l : list A) : sortBy le l ≡ₚ l.
Proof.
  induction l as [|x l IH]; simpl; [done|].
  fold (sortBy le l). by rewrite insertBy_perm, IH.
Qed.

Lemma insertBy_HdRel (a x : A) (l : list A) :
  le a x = true →
  HdRel (λ a b, le a b = true) a l →
  HdRel (λ a b, le a b = true) a (insertBy le x l).
Proof.
  intros Hax Hal. destruct l as [|y l]; simpl; [by constructor|].
  destruct (le x y); constructor; [done|]. by inversion Hal.
Qed.

Lemma insertBy_Sorted (x : A) (l : list A) :
  Sorted (λ a b, le a b = true) l →
  Sorted (λ a b, le a b = true) (insertBy le x l).
Proof.
  induction 1 as [|y l Hl IH Hy]; simpl.
  - repeat constructor.
  - destruct (le x y) eqn:Hxy.
    + constructor; [by constructor|]. by constructor.
    + constructor; [done|]. apply insertBy_HdRel; [|done].
      destruct (le_total x y); congruence.
Qed.

Lemma sortBy_Sorted (l : list A) :
  Sorted (λ a b, le a b = true) (sortBy le l).
Proof.
  induction l as [|x l IH]; simpl; [constructor|].
  by apply insertBy_Sorted.
Qed.
End Sorting.

Section Slices.
Context {A : Type} (R : A → A → Prop).

Lemma Sorted_drop (n : nat) (l : list A) : Sorted R l → Sorted R (drop n l).
Proof.
  revert l. induction n as [|n IH]; intros l Hl; [by destruct l|].
  destruct l as [|x l]; [done|]. simpl. apply IH. by inversion Hl.
Qed.

Lemma HdRel_take (n : nat) (a : A) (l : list A) :
  HdRel R a l → HdRel R a (take n l).
Proof.
  intros H. destruct n, l; simpl; try constructor. by inversion H.
Qed.

Lemma Sorted_take (n : nat) (l : list A) : Sorted R l → Sorted R (take n l).
Proof.
  revert l. induction n as [|n IH]; intros l Hl; [by destruct l; constructor|].
  destruct l as [|x l]; [done|]. simpl. inversion Hl; subst.
  constructor; [by apply IH|]. by apply HdRel_take.
Qed.
End Slices.

Lemma cursor_sort_perm (path : string) (dir : Z) (l : list Track.t) :
  cursor_sort path dir l ≡ₚ l.
Proof. apply sortBy_perm. Qed.

Lemma cursor_sort_ascending (path : string) (l : list Track.t) :
  ascending path (cursor_sort path 1 l).
Proof.
  apply (sortBy_Sorted (precedes path 1)). apply precedes_total.
Qed.

Lemma cursor_sort_descending (path : string) (l : list Track.t) :
  descending path (cursor_sort path (-1) l).
Proof.
  apply (sortBy_Sorted (precedes path (-1))). apply precedes_total.
Qed.

Lemma cursor_limit_Sorted (R : Track.t → Track.t → Prop) (n : Z)
    (l : list Track.t) :
  Sorted R l → Sorted R (cursor_limit n l).
Proof.
  intros H. unfold cursor_limit. destruct (n =? 0); [done|].
  by apply Sorted_take.
Qed.

Lemma direction_asc : direction "asc" = 1.
Proof. reflexivity. Qed.

Lemma direction_other (order : string) : order ≠ "asc" → direction order = -1.
Proof. intros H. unfold direction. by rewrite bool_decide_eq_false_2. Qed.

(** ** Queries *)

Section QueryFacts.
Variable regexValid : string → bool.
Variable regexTest : string → string → bool.

(** A query never writes. *)
Lemma getTracks_world (q : QueryParams.t) (w : World) :
  (getTracks regexValid regexTest q w).2 = w.
Proof.
  unfold getTracks. run. unfold newRegExp.
  destruct (truthy _); [destruct (regexValid _); [|done]|];
    (destruct (truthy_opt _); [destruct (regexValid _); [|done]|]);
    simpl; unfold TrackModel_find;
    (destruct (negb _); [done|]); by destruct (cursor_skip _ _).
Qed.

(** The first pattern that is not a regular expression rejects the
    query, before the collection is asked anything. *)
Lemma getTracks_bad_search (q : QueryParams.t) (w : World) :
  truthy (default "" (QueryParams.search q)) = true →
  regexValid (default "" (QueryParams.search q)) = false →
  getTracks regexValid regexTest q w
  = (inl (SyntaxError (default "" (QueryParams.search q))), w).
Proof.
  intros Ht Hv. unfold getTracks. run. unfold newRegExp.
  by rewrite Ht, Hv.
Qed.

Lemma getTracks_bad_artist (q : QueryParams.t) (w : World) :
  truthy (default "" (QueryParams.search q)) = false →
  truthy_opt (QueryParams.artist q) = true →
  regexValid (default "" (QueryParams.artist q)) = false →
  getTracks regexValid regexTest q w
  = (inl (SyntaxError (default "" (QueryParams.artist q))), w).
Proof.
  intros Hs Ht Hv. unfold getTracks. run. unfold newRegExp.
  by rewrite Hs, Ht, Hv.
Qed.

(** With its patterns compiled and its sort key accepted, a query is the
    count followed by the cursor. *)
Lemma getTracks_run (q : QueryParams.t) (w : World) :
  patternsValid regexValid q = true →
  sortPathAccepted (default "createdAt" (QueryParams.sort q)) = true →
  getTracks regexValid regexTest q w =
  match cursor_skip
          ((default 1 (QueryParams.page q) - 1)
           * default 10 (QueryParams.limit q))
          (matchingSorted regexTest q w)
  with
  | inl e => (inl e, w)
  | inr l =>
      (inr (TracksPage.mk
              (cursor_limit (default 10 (QueryParams.limit q)) l)
              (length
                 (List.filter
                    (matches regexTest
                       (buildFilter (default "" (QueryParams.search q))
                          (QueryParams.genre q) (QueryParams.artist q)))
                    (tracks w)))), w)
  end.
Proof.
  unfold patternsValid. intros [Hs Ha]%andb_true_iff Hp.
  unfold getTracks. run. unfold newRegExp.
  destruct (truthy _); [rewrite Hs|];
    (destruct (truthy_opt _); [rewrite Ha|]); simpl;
    unfold TrackModel_countDocuments, TrackModel_find, matchingSorted;
    rewrite Hp; simpl; by destruct (cursor_skip _ _).
Qed.

(** A query that resolves had its patterns compiled and its sort key
    accepted. *)
Lemma getTracks_inv (q : QueryParams.t) (w : World) (r : TracksPage.t) :
  (getTracks regexValid regexTest q w).1 = inr r →
  patternsValid regexValid q = true
  ∧ sortPathAccepted (default "createdAt" (QueryParams.sort q)) = true.
Proof.
  unfold getTracks, patternsValid. run. unfold newRegExp.
  destruct (truthy _); [destruct (regexValid _); [|done]|];
    (destruct (truthy_opt _); [destruct (regexValid _); [|done]|]);
    simpl; unfold TrackModel_find;
    (destruct (sortPathAccepted _); [done|]); done.
Qed.

Lemma matchingSorted_perm (q : QueryParams.t) (w : World) :
  matchingSorted regexTest q w
  ≡ₚ List.filter
       (matches regexTest
          (buildFilter (default "" (QueryParams.search q))
             (QueryParams.genre q) (QueryParams.artist q)))
       (tracks w).
Proof. apply cursor_sort_perm. Qed.

(** C5, amended. For every query whose page (default 1) and limit
    (default 10) are both at least 1, whose search and artist patterns
    (each when non-empty) are regular expressions and whose sort field
    (default [createdAt]) is a well-formed field path, [getTracks]
    resolves, leaves the world alone, and its value is the page as
    specified: [total] is the number of records matching the filter,
    whatever [page] and [limit] are, and [tracks] is the matching records
    in sorted order (a rearrangement of the matching records) with the
    first (page−1)×limit skipped and at most [limit] taken: the [k]-th
    record of the page is record number (page−1)×limit + k of the sorted
    matches. *)
Theorem getTracks_page (q : QueryParams.t) (w : World) :
  let page := default 1 (QueryParams.page q) in
  let limit := default 10 (QueryParams.limit q) in
  let matching :=
    List.filter
      (matches regexTest
         (buildFilter (default "" (QueryParams.search q))
            (QueryParams.genre q) (QueryParams.artist q)))
      (tracks w) in
  let r := pageBySpec regexTest q w in
  1 ≤ page →
  1 ≤ limit →
  patternsValid regexValid q = true →
  sortPathAccepted (default "createdAt" (QueryParams.sort q)) = true →
  getTracks regexValid regexTest q w = (inr r, w)
  ∧ matchingSorted regexTest q w ≡ₚ matching
  ∧ TracksPage.total r = length matching
  ∧ (∀ p l r',
       (getTracks regexValid regexTest (QueryParams.with_paging p l q) w).1
       = inr r' →
       TracksPage.total r' = TracksPage.total r)
  ∧ (length (TracksPage.tracks r) ≤ Z.to_nat limit)%nat
  ∧ (∀ k : nat, (k < Z.to_nat limit)%nat →
       TracksPage.tracks r !! k
       = matchingSorted regexTest q w
         !! (Z.to_nat ((page - 1) * limit) + k)%nat).
Proof.
  intros page limit matching r Hp Hl Hv Hs.
  pose proof (matchingSorted_perm q w) as Hperm.
  split; [|split; [done|split; [|split; [|split]]]].
  - rewrite getTracks_run by done. fold page limit matching.
    unfold cursor_skip, cursor_limit.
    rewrite (proj2 (Z.ltb_ge _ _)) by nia.
    rewrite (proj2 (Z.eqb_neq _ _)) by lia.
    rewrite Z.abs_eq by lia. subst r. unfold pageBySpec.
    fold page limit. by rewrite (Permutation_length Hperm).
  - subst r. simpl. by apply Permutation_length.
  - intros p l r' Hr'.
    rewrite (getTracks_run (QueryParams.with_paging p l q) w) in Hr'
      by done.
    destruct (cursor_skip _ _); [done|]. simpl in Hr'.
    inversion Hr' as [Hr'']. subst r. simpl.
    symmetry. by apply Permutation_length.
  - subst r. simpl. rewrite length_take. lia.
  - intros k Hk. subst r. simpl. fold page limit.
    by rewrite lookup_take_lt, lookup_drop.
Qed.

(** C6. A query whose [search] is the empty string resolves to exactly
    what the same query without [search] resolves to: the filter built
    from an empty search has no [$or] clause, and a filter with no key set
    is satisfied by every record. *)
Theorem getTracks_empty_search (q : QueryParams.t) (w : World) :
  getTracks regexValid regexTest (QueryParams.with_search (Some "") q) w
  = getTracks regexValid regexTest (QueryParams.with_search None q) w
  ∧ buildFilter (default "" (Some ""))
      (QueryParams.genre q) (QueryParams.artist q)
    = buildFilter (default "" None)
        (QueryParams.genre q) (QueryParams.artist q)
  ∧ Filter.or (buildFilter "" (QueryParams.genre q) (QueryParams.artist q))
    = None
  ∧ List.filter (matches regexTest (buildFilter "" None None)) (tracks w)
    = tracks w.
Proof.
  repeat split. simpl. induction (tracks w) as [|t l IH]; [done|].
  simpl. by rewrite IH.
Qed.

(** C9. The sort direction is ascending exactly when [order] is the
    string "asc". Whenever [getTracks] resolves, its page is in ascending
    order of the sort field (default [createdAt]) if [order] is "asc", and
    in descending order for every other [order], absent or not: such a
    query resolves to what it resolves to with [order] set to "desc". *)
Theorem getTracks_order (q : QueryParams.t) (w : World) (r : TracksPage.t) :
  (getTracks regexValid regexTest q w).1 = inr r →
  let path := default "createdAt" (QueryParams.sort q) in
  direction (default "desc" (QueryParams.order q))
  = (if decide (QueryParams.order q = Some "asc") then 1 else -1)
  ∧ (QueryParams.order q = Some "asc" → ascending path (TracksPage.tracks r))
  ∧ (QueryParams.order q ≠ Some "asc" →
     descending path (TracksPage.tracks r)
     ∧ getTracks regexValid regexTest q w
       = getTracks regexValid regexTest
           (QueryParams.with_order (Some "desc") q) w).
Proof.
  intros Hr path. destruct (getTracks_inv _ _ _ Hr) as [Hv Hs].
  rewrite getTracks_run in Hr by done.
  unfold cursor_skip in Hr. destruct (_ <? 0); [done|].
  simpl in Hr. inversion Hr as [Hr']. clear Hr Hr'.
  unfold matchingSorted. fold path. split; [|split].
  - destruct (decide (QueryParams.order q = Some "asc")) as [->|Ho];
      [done|].
    destruct (QueryParams.order q) as [o|]; [|done].
    simpl. apply direction_other. intros ->. by apply Ho.
  - intros ->. simpl. rewrite direction_asc.
    apply cursor_limit_Sorted, Sorted_drop, cursor_sort_ascending.
  - intros Ho.
    assert (direction (default "desc" (QueryParams.order q)) = -1) as Hd.
    { destruct (QueryParams.order q) as [o|]; [|done].
      simpl. apply direction_other. intros ->. by apply Ho. }
    split.
    + rewrite Hd.
      apply cursor_limit_Sorted, Sorted_drop, cursor_sort_descending.
    + rewrite (getTracks_run q w) by done.
      rewrite (getTracks_run (QueryParams.with_order (Some "desc") q) w)
        by done.
      unfold matchingSorted. simpl. by rewrite Hd.
Qed.
End QueryFacts.

(** C5, refuted as stated. With [limit: 0] the collection applies no
    limit: [getTracks] resolves to both records of the sample world, where
    taking at most [limit] records would give none. *)
Lemma getTracks_limit_zero :
  resolved (getTracks plainValid plainTest limitZero sampleWorld)
  = Some (TracksPage.mk [tuneTrack; songTrack] 2)
  ∧ pageBySpec plainTest limitZero sampleWorld = TracksPage.mk [] 2.
Proof. split; reflexivity. Qed.

(** A page number below one asks the collection to skip a negative number
    of records, which it rejects. *)
Example getTracks_page_zero :
  (getTracks plainValid plainTest
     (QueryParams.mk None None None None None (Some 0) None) sampleWorld).1
  = inl NegativeSkip.
Proof. reflexivity. Qed.

(** A search that is not a regular expression, and a sort field that is
    not a field path, reject the query. *)
Example getTracks_bad_input :
  (getTracks plainValid plainTest
     (QueryParams.mk (Some "*") None None None None None None)
     sampleWorld).1
  = inl (SyntaxError "*")
  ∧ (getTracks plainValid plainTest emptySort sampleWorld).1
    = inl (BadSortPath "").
Proof. split; reflexivity. Qed.

Lemma getTracks_page_witness :
  getTracks plainValid plainTest secondPage sampleWorld
  = (inr (TracksPage.mk [tuneTrack] 2), sampleWorld).
Proof.
  refine (proj1 (getTracks_page plainValid plainTest secondPage sampleWorld
                   _ _ _ _));
    first [reflexivity | simpl; lia].
Defined.

Lemma getTracks_order_witness :
  direction (default "desc" (QueryParams.order oddOrder))
  = (if decide (QueryParams.order oddOrder = Some "asc") then 1 else -1)
  ∧ (QueryParams.order oddOrder = Some "asc" →
   ascending "title" [tuneTrack; songTrack])
  ∧ (QueryParams.order oddOrder ≠ Some "asc" →
     descending "title" [tuneTrack; songTrack]
     ∧ getTracks plainValid plainTest oddOrder sampleWorld
       = getTracks plainValid plainTest
           (QueryParams.with_order (Some "desc") oddOrder) sampleWorld).
Proof.
  apply (getTracks_order plainValid plainTest oddOrder sampleWorld
           (TracksPage.mk [tuneTrack; songTrack] 2)).
  reflexivity.
Defined.

(** ** Reference data *)

(** [getGenres] resolves to the same thirteen names in every world, and
    changes nothing. *)
Lemma getGenres_fixed (w w' : World) :
  getGenres w = (inr (default [] (resolved (getGenres w'))), w)
  ∧ length (default [] (resolved (getGenres w'))) = 13%nat.
Proof. by split. Qed.

(** * Further properties of the repository *)

(** ** Generated ids and timestamps are never empty *)

Lemma pretty_N_go_filled (x : N) (c : Ascii.ascii) (s : string) :
  pretty_N_go x (String c s) ≠ "".
Proof.
  revert c s. induction (N.lt_wf_0 x) as [x _ IH]; intros c s.
  destruct (decide (x = 0%N)) as [->|Hx].
  - by rewrite pretty_N_go_0.
  - rewrite pretty_N_go_step by lia. apply IH. apply N.div_lt; lia.
Qed.

Lemma pretty_N_filled (x : N) : pretty x ≠ "".
Proof.
  unfold pretty, pretty_N. destruct (decide (x = 0%N)); [done|].
  rewrite pretty_N_go_step by lia. apply pretty_N_go_filled.
Qed.

Lemma pretty_Z_filled (z : Z) : pretty z ≠ "".
Proof.
  destruct z as [|p|p]; [done| |done]. apply (pretty_N_filled (Npos p)).
Qed.

Lemma append_filled (s t : string) : t ≠ "" → s +:+ t ≠ "".
Proof. intros Ht. induction s as [|c s IH]; [done|]. by simpl. Qed.

Lemma toISOString_filled (ms : Z) : toISOString ms ≠ "".
Proof.
  unfold toISOString. destruct (civilFromDays _) as [[y m] d].
  by apply append_filled.
Qed.

(** Validation passes exactly when the three required paths the caller
    supplies are filled: the generated id and timestamps always are. *)
Lemma createTrack_validates (track : TrackInput.t) (w : World) :
  TrackInput.title track ≠ "" →
  TrackInput.artist track ≠ "" →
  TrackInput.slug track ≠ "" →
  missingPath
    (Track.mk (pretty (clock w))
       (TrackInput.title track) (TrackInput.artist track)
       (default "" (TrackInput.album track))
       (default [] (TrackInput.genres track))
       (default "" (TrackInput.coverImage track))
       (default "" (TrackInput.audioFile track))
       (TrackInput.slug track)
       (toISOString (clock w + lag w))
       (toISOString (clock w + lag w))) = None.
Proof.
  intros Ht Ha Hs. unfold missingPath. simpl.
  rewrite (proj2 (truthy_true _) (pretty_Z_filled _)).
  rewrite (proj2 (truthy_true _) Ht), (proj2 (truthy_true _) Ha).
  rewrite (proj2 (truthy_true _) Hs).
  by rewrite (proj2 (truthy_true _) (toISOString_filled _)).
Qed.

Lemma find_past (p : Track.t → bool) (pre l : list Track.t) :
  Forall (λ x, p x = false) pre → List.find p (pre ++ l) = List.find p l.
Proof. induction 1 as [|x pre Hx _ IH]; simpl; [done|]. by rewrite Hx. Qed.

Lemma find_here (p : Track.t → bool) (pre post : list Track.t) (t : Track.t) :
  Forall (λ x, p x = false) pre → p t = true →
  List.find p (pre ++ t :: post) = Some t.
Proof. intros Hpre Ht. rewrite find_past by done. simpl. by rewrite Ht. Qed.

(** A document that does not satisfy [p] can be replaced or removed
    without changing what [findOne] finds. *)
Lemma find_around (p : Track.t → bool) (pre post : list Track.t)
    (t : Track.t) :
  p t = false →
  List.find p (pre ++ t :: post) = List.find p (pre ++ post).
Proof.
  intros Ht. induction pre as [|x pre IH]; simpl; [by rewrite Ht|].
  by rewrite IH.
Qed.

(** ** Every operation keeps the unique indexes *)

(** X1. Ids and slugs that are unique across the store stay unique after
    any repository call that writes: [createTrack], [updateTrack],
    [deleteAudioFile], [deleteTrack] and [deleteMultipleTracks], whether
    the call resolves or rejects. *)
Theorem wfStore_kept (track : TrackInput.t) (i : string) (u : Partial.t)
    (l : list string) (w : World) :
  wfStore w →
  wfStore (createTrack track w).2
  ∧ wfStore (updateTrack i u w).2
  ∧ wfStore (deleteAudioFile i w).2
  ∧ wfStore (deleteTrack i w).2
  ∧ wfStore (deleteMultipleTracks l w).2.
Proof.
  intros Hw.
  split; [by apply createTrack_wf|]. split; [by apply updateTrack_wf|].
  split; [by apply deleteAudioFile_wf|]. split; [by apply deleteTrack_wf|].
  by apply deleteMultipleTracks_wf.
Qed.

Lemma wfStore_kept_witness :
  wfStore (createTrack firstInput sampleWorld).2
  ∧ wfStore (updateTrack "1" renumber sampleWorld).2
  ∧ wfStore (deleteAudioFile "1" sampleWorld).2
  ∧ wfStore (deleteTrack "1" sampleWorld).2
  ∧ wfStore (deleteMultipleTracks ["1"; "2"] sampleWorld).2.
Proof.
  apply (wfStore_kept firstInput "1" renumber ["1"; "2"] sampleWorld).
  compute_done.
Defined.

(** ** Creating a track *)

(** X2. When the title, artist and slug given are non-empty, the slug is
    free and no record has the id read off the clock, [createTrack]
    resolves to the new record: the id is the decimal form of the first
    clock reading, [createdAt] and [updatedAt] are equal, both the ISO
    form of the second clock reading (later than the first by whatever
    the clock has moved on), absent optional fields take the schema
    defaults, the record is stored last, the media store is untouched,
    and reading by the new id or by the new slug finds exactly this
    record. *)
Theorem createTrack_then_read (track : TrackInput.t) (w : World) :
  TrackInput.title track ≠ "" →
  TrackInput.artist track ≠ "" →
  TrackInput.slug track ≠ "" →
  TrackInput.slug track ∉ slugs (tracks w) →
  pretty (clock w) ∉ ids (tracks w) →
  ∃ t w',
    createTrack track w = (inr t, w')
    ∧ t = Track.mk (pretty (clock w))
            (TrackInput.title track) (TrackInput.artist track)
            (default "" (TrackInput.album track))
            (default [] (TrackInput.genres track))
            (default "" (TrackInput.coverImage track))
            (default "" (TrackInput.audioFile track))
            (TrackInput.slug track)
            (toISOString (clock w + lag w)) (toISOString (clock w + lag w))
    ∧ tracks w' = tracks w ++ [t]
    ∧ media w' = media w
    ∧ getTrackById (Track.id t) w' = (inr (Some t), w')
    ∧ getTrackBySlug (Track.slug t) w' = (inr (Some t), w').
Proof.
  intros Ht Ha Hs Hslug Hid. rewrite createTrack_run.
  unfold TrackModel_create. rewrite createTrack_validates by done. simpl.
  rewrite bool_decide_eq_false_2 by done.
  rewrite bool_decide_eq_false_2 by done.
  eexists _, _. split; [reflexivity|]. split; [reflexivity|].
  split; [done|]. split; [done|]. split.
  - rewrite getTrackById_run. simpl.
    rewrite find_here; [done|by apply none_byId|by apply byId_true].
  - rewrite getTrackBySlug_run. simpl.
    rewrite find_here; [done|by apply none_bySlug|].
    by apply bool_decide_eq_true.
Qed.

Lemma createTrack_then_read_witness :
  ∃ t w',
    createTrack firstInput slowWorld = (inr t, w')
    ∧ t = Track.mk "1700000000000" "Alpha" "Ann" "" [] "" "" "alpha"
            "2023-11-14T22:13:20.002Z" "2023-11-14T22:13:20.002Z"
    ∧ tracks w' = tracks slowWorld ++ [t]
    ∧ media w' = media slowWorld
    ∧ getTrackById (Track.id t) w' = (inr (Some t), w')
    ∧ getTrackBySlug (Track.slug t) w' = (inr (Some t), w').
Proof.
  apply (createTrack_then_read firstInput slowWorld);
    try discriminate; compute_done.
Defined.

(** X3. A [createTrack] whose slug is already held by a stored record
    rejects and leaves the world as it was; when the title, artist and
    slug given are non-empty and the generated id is free, the rejection
    is the duplicate key on [slug]. *)
Theorem createTrack_taken_slug (track : TrackInput.t) (w : World) :
  TrackInput.slug track ∈ slugs (tracks w) →
  ∃ e, createTrack track w = (inl e, w)
       ∧ (TrackInput.title track ≠ "" →
          TrackInput.artist track ≠ "" →
          TrackInput.slug track ≠ "" →
          pretty (clock w) ∉ ids (tracks w) →
          e = DuplicateKey "slug").
Proof.
  intros Hslug. rewrite createTrack_run. unfold TrackModel_create.
  destruct (missingPath _) as [p|] eqn:Hm.
  - eexists. split; [reflexivity|]. intros Ht Ha Hs _.
    by rewrite createTrack_validates in Hm.
  - simpl. case_bool_decide as Hi.
    + eexists. split; [reflexivity|]. by intros _ _ _ ?.
    + rewrite bool_decide_eq_true_2 by done. eauto.
Qed.

Lemma createTrack_taken_slug_witness :
  ∃ e, createTrack takenSlugInput sampleWorld = (inl e, sampleWorld)
       ∧ (TrackInput.title takenSlugInput ≠ "" →
          TrackInput.artist takenSlugInput ≠ "" →
          TrackInput.slug takenSlugInput ≠ "" →
          pretty (clock sampleWorld) ∉ ids (tracks sampleWorld) →
          e = DuplicateKey "slug").
Proof.
  apply (createTrack_taken_slug takenSlugInput sampleWorld). compute_done.
Defined.

(** X4. Deleting a record right after creating it undoes the creation:
    whenever [createTrack] resolves to a record, [deleteTrack] of that
    record's id resolves to [true] and the world is again what it was
    before the create. *)
Theorem createTrack_then_deleteTrack (track : TrackInput.t) (t : Track.t)
    (w : World) :
  (createTrack track w).1 = inr t →
  deleteTrack (Track.id t) (createTrack track w).2 = (inr true, w).
Proof.
  intros Hr.
  destruct (createTrack_cases track w) as [(t0 & E & _ & Hid & _)|[e E]];
    rewrite E in Hr |- *; [|done].
  simpl in Hr. inversion Hr; subst t0. simpl.
  rewrite deleteTrack_run. simpl.
  rewrite (locate_skip _ (tracks w) []);
    [|by apply none_byId|by apply byId_true].
  rewrite deleteAudioFile_run. simpl. rewrite app_nil_r.
  rewrite (locate_absent _ _ Hid).
  destruct w; by destruct (truthy (Track.audioFile t)).
Qed.

Lemma createTrack_then_deleteTrack_witness :
  deleteTrack "1700000000000" (createTrack firstInput sampleWorld).2
  = (inr true, sampleWorld).
Proof.
  apply (createTrack_then_deleteTrack firstInput
           (Track.mk "1700000000000" "Alpha" "Ann" "" [] "" "" "alpha"
              "2023-11-14T22:13:20.000Z" "2023-11-14T22:13:20.000Z")
           sampleWorld).
  reflexivity.
Defined.

(** ** Updating a track *)

(** X5. [updateTrack] on an id no record has resolves to nothing and
    leaves the world as it was: an update never creates a record. *)
Theorem updateTrack_absent (i : string) (u : Partial.t) (w : World) :
  i ∉ ids (tracks w) → updateTrack i u w = (inr None, w).
Proof.
  intros Hi. rewrite updateTrack_run. unfold TrackModel_findOneAndUpdate.
  by rewrite locate_absent.
Qed.

Lemma updateTrack_absent_witness :
  updateTrack "9" retitle sampleWorld = (inr None, sampleWorld).
Proof. apply (updateTrack_absent "9" retitle sampleWorld). compute_done. Defined.

(** X6. Whenever [updateTrack] resolves to a record, that record is the
    stored one with the fields present in the partial argument written
    over it and every other field kept, except that [updatedAt] is always
    the ISO form of the current clock: an [updatedAt] supplied by the
    caller is overridden, and the call behaves the same whatever
    [updatedAt] the caller supplies. *)
Theorem updateTrack_merges (i : string) (u : Partial.t) (t' : Track.t)
    (w : World) :
  (updateTrack i u w).1 = inr (Some t') →
  ∃ t, List.find (byId i) (tracks w) = Some t
       ∧ t' = Track.mk
                (default (Track.id t) (Partial.id u))
                (default (Track.title t) (Partial.title u))
                (default (Track.artist t) (Partial.artist u))
                (default (Track.album t) (Partial.album u))
                (default (Track.genres t) (Partial.genres u))
                (default (Track.coverImage t) (Partial.coverImage u))
                (default (Track.audioFile t) (Partial.audioFile u))
                (default (Track.slug t) (Partial.slug u))
                (default (Track.createdAt t) (Partial.createdAt u))
                (toISOString (clock w))
       ∧ ∀ stamp, updateTrack i (withUpdatedAt stamp u) w = updateTrack i u w.
Proof.
  intros Hr. rewrite updateTrack_run in Hr.
  unfold TrackModel_findOneAndUpdate in Hr. rewrite find_locate.
  destruct (locate (byId i) (tracks w)) as [[[pre t] post]|]; [|done].
  exists t. split; [done|]. split; [|done].
  destruct (collides (Track.id t) _ _); [done|].
  destruct (collides (Track.slug t) _ _); [done|].
  simpl in Hr. by inversion Hr.
Qed.

Lemma updateTrack_merges_witness :
  ∃ t, List.find (byId "1") (tracks sampleWorld) = Some t
       ∧ Track.mk "1" "Hymn" "Ann" "" ["Rock"] ""
           "https://media.example/tracks/1.mp3" "song"
           "2020-09-13T12:26:40.000Z" "2023-11-14T22:13:20.000Z"
         = Track.mk
             (default (Track.id t) (Partial.id retitle))
             (default (Track.title t) (Partial.title retitle))
             (default (Track.artist t) (Partial.artist retitle))
             (default (Track.album t) (Partial.album retitle))
             (default (Track.genres t) (Partial.genres retitle))
             (default (Track.coverImage t) (Partial.coverImage retitle))
             (default (Track.audioFile t) (Partial.audioFile retitle))
             (default (Track.slug t) (Partial.slug retitle))
             (default (Track.createdAt t) (Partial.createdAt retitle))
             (toISOString (clock sampleWorld))
       ∧ ∀ stamp, updateTrack "1" (withUpdatedAt stamp retitle) sampleWorld
                  = updateTrack "1" retitle sampleWorld.
Proof.
  apply (updateTrack_merges "1" retitle _ sampleWorld). reflexivity.
Defined.

(** X7. An update of the record with id [i] leaves the media store and
    the clock alone, and whatever it does (resolve, find nothing or
    reject) every read by another id [j] finds what it found before, as
    long as the update does not write [j] as the new id. *)
Theorem updateTrack_frame (i j : string) (u : Partial.t) (w : World) :
  j ≠ i →
  Partial.id u ≠ Some j →
  media (updateTrack i u w).2 = media w
  ∧ clock (updateTrack i u w).2 = clock w
  ∧ (getTrackById j (updateTrack i u w).2).1 = (getTrackById j w).1.
Proof.
  intros Hji Hu. rewrite updateTrack_run.
  unfold TrackModel_findOneAndUpdate.
  destruct (locate (byId i) (tracks w)) as [[[pre t] post]|] eqn:E; [|done].
  destruct (collides (Track.id t) _ _); [done|].
  destruct (collides (Track.slug t) _ _); [done|].
  split; [done|]. split; [done|].
  apply locate_Some in E as (E & Ht%byId_true & _).
  rewrite !getTrackById_run. simpl. rewrite E. f_equal.
  rewrite !find_around; [done| |].
  - apply byId_false. congruence.
  - apply byId_false. simpl.
    destruct (Partial.id u) as [k|]; simpl; congruence.
Qed.

Lemma updateTrack_frame_witness :
  media (updateTrack "1" renumber sampleWorld).2 = media sampleWorld
  ∧ clock (updateTrack "1" renumber sampleWorld).2 = clock sampleWorld
  ∧ (getTrackById "2" (updateTrack "1" renumber sampleWorld).2).1
    = (getTrackById "2" sampleWorld).1.
Proof.
  apply (updateTrack_frame "1" "2" renumber sampleWorld); discriminate.
Defined.



(** The sample update onto the other record's slug, evaluated. *)
Example updateTrack_taken_slug_sample :
  updateTrack "1" reslug sampleWorld = (inl (DuplicateKey "slug"), sampleWorld).
Proof. reflexivity. Qed.

(** ** Deleting tracks *)

(** One delete in a collection with unique ids: the record with that id,
    if there is one, is taken out; nothing else moves. *)
Lemma deleteTrack_step (i : string) (w : World) :
  NoDup (ids (tracks w)) →
  ∃ w1,
    deleteTrack i w = (inr (bool_decide (i ∈ ids (tracks w))), w1)
    ∧ media w1 = media w
    ∧ clock w1 = clock w
    ∧ NoDup (ids (tracks w1))
    ∧ (∀ j, j ∈ ids (tracks w1) ↔ j ∈ ids (tracks w) ∧ j ≠ i)
    ∧ (∀ j, j ≠ i →
         List.find (byId j) (tracks w1) = List.find (byId j) (tracks w))
    ∧ length (tracks w1)
      = (length (tracks w)
         - (if bool_decide (i ∈ ids (tracks w)) then 1 else 0))%nat.
Proof.
  intros Hnd. destruct (deleteTrack_total i w) as [w1 Hd].
  exists w1. split; [done|].
  destruct (deleteTrack_after _ _ _ _ Hnd Hd) as (Hnd1 & Hi1 & Hsub).
  rewrite deleteTrack_unique in Hd by done.
  destruct (locate (byId i) (tracks w)) as [[[pre t] post]|] eqn:E.
  - apply locate_Some in E as (E & Ht%byId_true & _).
    assert (i ∈ ids (tracks w)) as Hin.
    { rewrite E. unfold ids. rewrite fmap_app, fmap_cons, Ht.
      apply elem_of_app. right. by left. }
    rewrite (bool_decide_eq_true_2 _ Hin) in Hd |- *.
    inversion Hd as [Hw]. clear Hd. subst w1. simpl in *.
    split; [done|]. split; [done|]. split; [done|]. split; [|split].
    + intros j. split.
      * intros Hj. split; [by apply Hsub|]. by intros ->.
      * intros [Hj Hji]. revert Hj. rewrite E. unfold ids.
        rewrite !fmap_app, fmap_cons, !elem_of_app, elem_of_cons.
        intros [?|[?|?]]; [by left|congruence|by right].
    + intros j Hji. rewrite E, find_around; [done|].
      apply byId_false. congruence.
    + rewrite E, !length_app. simpl. lia.
  - apply locate_None, none_byId in E.
    rewrite (bool_decide_eq_false_2 _ E) in Hd |- *.
    inversion Hd as [Hw]. clear Hd. subst w1.
    split; [done|]. split; [done|]. split; [done|]. split; [|split].
    + intros j. split; [|tauto]. intros Hj. split; [done|]. by intros ->.
    + done.
    + lia.
Qed.

(** X9. In a collection with unique ids, [deleteTrack i] resolves to
    whether a record with id [i] was stored; afterwards no record has id
    [i], every other id is present exactly if it was before and reads as
    before, the collection is shorter by one exactly when a record was
    found, and the media store is what it was. *)
Theorem deleteTrack_removes_only_it (i : string) (w : World) :
  NoDup (ids (tracks w)) →
  ∃ w1,
    deleteTrack i w = (inr (bool_decide (i ∈ ids (tracks w))), w1)
    ∧ media w1 = media w
    ∧ (∀ j, j ∈ ids (tracks w1) ↔ j ∈ ids (tracks w) ∧ j ≠ i)
    ∧ (∀ j, j ≠ i → (getTrackById j w1).1 = (getTrackById j w).1)
    ∧ (getTrackById i w1).1 = inr None
    ∧ length (tracks w1)
      = (length (tracks w)
         - (if bool_decide (i ∈ ids (tracks w)) then 1 else 0))%nat.
Proof.
  intros Hnd.
  destruct (deleteTrack_step i w Hnd)
    as (w1 & Hd & Hm & _ & _ & Hids & Hfind & Hlen).
  exists w1. split; [done|]. split; [done|]. split; [done|].
  split; [|split; [|done]].
  - intros j Hj. rewrite !getTrackById_run. simpl. by rewrite Hfind.
  - rewrite getTrackById_run. simpl. rewrite find_absent; [done|].
    apply none_byId. intros Hi. by apply Hids in Hi as [_ ?].
Qed.

Lemma deleteTrack_removes_only_it_witness :
  ∃ w1,
    deleteTrack "1" sampleWorld
    = (inr (bool_decide ("1" ∈ ids (tracks sampleWorld))), w1)
    ∧ media w1 = media sampleWorld
    ∧ (∀ j, j ∈ ids (tracks w1) ↔ j ∈ ids (tracks sampleWorld) ∧ j ≠ "1")
    ∧ (∀ j, j ≠ "1" → (getTrackById j w1).1 = (getTrackById j sampleWorld).1)
    ∧ (getTrackById "1" w1).1 = inr None
    ∧ length (tracks w1)
      = (length (tracks sampleWorld)
         - (if bool_decide ("1" ∈ ids (tracks sampleWorld)) then 1 else 0))%nat.
Proof.
  apply (deleteTrack_removes_only_it "1" sampleWorld). compute_done.
Defined.

(** X10. [deleteAudioFile] is idempotent: called a second time with the
    same id, it resolves to [false] and changes nothing, whatever the
    first call did. *)
Theorem deleteAudioFile_twice (i : string) (w : World) :
  deleteAudioFile i (deleteAudioFile i w).2
  = (inr false, (deleteAudioFile i w).2).
Proof.
  rewrite (deleteAudioFile_run i w).
  destruct (locate (byId i) (tracks w)) as [[[pre t] post]|] eqn:E.
  - destruct (truthy (Track.audioFile t)) eqn:Ha; simpl.
    + apply locate_Some in E as (_ & Ht & Hpre).
      rewrite deleteAudioFile_run. simpl.
      by rewrite (locate_skip _ pre post).
    + rewrite deleteAudioFile_run. by rewrite E, Ha.
  - simpl. rewrite deleteAudioFile_run. by rewrite E.
Qed.

(** X11. In a collection with unique ids, [deleteMultipleTracks l]
    resolves; afterwards the stored ids are exactly the earlier ones that
    do not occur in [l], every record whose id is not in [l] reads as
    before, [success] holds exactly the ids of [l] that were stored,
    [failed] holds only ids of [l], and the media store is what it was
    (no audio is removed from the media host). *)
Theorem deleteMultipleTracks_outcome (l : list string) (w : World) :
  NoDup (ids (tracks w)) →
  ∃ r w',
    deleteMultipleTracks l w = (inr r, w')
    ∧ media w' = media w
    ∧ (∀ j, j ∈ ids (tracks w') ↔ j ∈ ids (tracks w) ∧ j ∉ l)
    ∧ (∀ j, j ∉ l → (getTrackById j w').1 = (getTrackById j w).1)
    ∧ (∀ j, j ∈ BatchDeleteResponse.success r ↔ j ∈ l ∧ j ∈ ids (tracks w))
    ∧ (∀ j, j ∈ BatchDeleteResponse.failed r → j ∈ l).
Proof.
  revert w. induction l as [|i rest IH]; intros w Hnd.
  - eexists _, _. split; [apply deleteMultipleTracks_nil|]. simpl.
    split; [done|]. split; [|split; [done|split]].
    + intros j. rewrite elem_of_nil. tauto.
    + intros j. rewrite !elem_of_nil. tauto.
    + intros j. by rewrite elem_of_nil.
  - destruct (deleteTrack_step i w Hnd)
      as (w1 & Hd & Hm & _ & Hnd1 & Hids & Hfind & _).
    destruct (IH w1 Hnd1) as (r' & w' & Hr & Hm' & Hids' & Hread & Hs & Hf).
    rewrite deleteMultipleTracks_cons, Hd, Hr.
    eexists _, _. split; [reflexivity|]. split; [congruence|].
    split; [|split; [|split]].
    + intros j. rewrite Hids', Hids, not_elem_of_cons. tauto.
    + intros j [Hji Hj]%not_elem_of_cons. rewrite Hread by done.
      rewrite !getTrackById_run. simpl. by rewrite Hfind.
    + intros j. case_bool_decide as Hb; simpl.
      * rewrite !elem_of_cons, Hs, Hids.
        split.
        -- intros [->|(? & ? & _)]; split; auto.
        -- intros [[->|?] ?]; [by left|].
           destruct (decide (j = i)) as [->|]; [by left|by right].
      * rewrite elem_of_cons, Hs, Hids. split.
        -- intros (? & ? & _). split; auto.
        -- intros [[->|?] ?]; [done|]. repeat split; [done..|].
           by intros ->.
    + intros j. case_bool_decide; simpl; rewrite !elem_of_cons.
      * intros Hj. right. by apply Hf.
      * intros [->|Hj]; [by left|right; by apply Hf].
Qed.

Lemma deleteMultipleTracks_outcome_witness :
  ∃ r w',
    deleteMultipleTracks ["2"; "9"] sampleWorld = (inr r, w')
    ∧ media w' = media sampleWorld
    ∧ (∀ j, j ∈ ids (tracks w')
            ↔ j ∈ ids (tracks sampleWorld) ∧ j ∉ ["2"; "9"])
    ∧ (∀ j, j ∉ ["2"; "9"] →
            (getTrackById j w').1 = (getTrackById j sampleWorld).1)
    ∧ (∀ j, j ∈ BatchDeleteResponse.success r
            ↔ j ∈ ["2"; "9"] ∧ j ∈ ids (tracks sampleWorld))
    ∧ (∀ j, j ∈ BatchDeleteResponse.failed r → j ∈ ["2"; "9"]).
Proof.
  apply (deleteMultipleTracks_outcome ["2"; "9"] sampleWorld). compute_done.
Defined.

(** ** Querying *)

Lemma cursor_limit_sublist (n : Z) (l : list Track.t) :
  cursor_limit n l `sublist_of` l.
Proof.
  unfold cursor_limit. destruct (n =? 0); [done|]. apply sublist_take.
Qed.

Lemma filter_length_mono {A : Type} (f g : A → bool) (l : list A) :
  (∀ x, f x = true → g x = true) →
  (length (List.filter f l) ≤ length (List.filter g l))%nat.
Proof.
  intros Hfg. induction l as [|x l IH]; simpl; [done|].
  destruct (f x) eqn:Hf.
  - rewrite (Hfg x Hf). simpl. lia.
  - destruct (g x); simpl; lia.
Qed.

Lemma filter_all {A : Type} (f : A → bool) (l : list A) :
  (∀ x, f x = true) → List.filter f l = l.
Proof.
  intros Hf. induction l as [|x l IH]; simpl; [done|].
  by rewrite Hf, IH.
Qed.

(** The order of keys is a total order, so a list without equal keys has
    one sorted arrangement only. *)
Lemma string_leb_trans (s1 s2 s3 : string) :
  String.leb s1 s2 = true → String.leb s2 s3 = true →
  String.leb s1 s3 = true.
Proof.
  unfold String.leb. revert s2 s3.
  induction s1 as [|c1 s1 IH]; intros [|c2 s2] [|c3 s3]; simpl; try done.
  unfold Ascii.compare.
  destruct (N.compare_spec (Ascii.N_of_ascii c1) (Ascii.N_of_ascii c2))
    as [E12|L12|G12]; [|intros _|done].
  - rewrite E12.
    destruct (N.compare (Ascii.N_of_ascii c2) (Ascii.N_of_ascii c3));
      [apply IH|done|done].
  - destruct (N.compare_spec (Ascii.N_of_ascii c2) (Ascii.N_of_ascii c3))
      as [E23|L23|G23]; [intros _|intros _|done].
    + rewrite <- E23. by rewrite (proj2 (N.compare_lt_iff _ _) L12).
    + by rewrite (proj2 (N.compare_lt_iff _ _) (N.lt_trans _ _ _ L12 L23)).
Qed.

Lemma keyLeb_trans (a b c : SortKey) :
  keyLeb a b = true → keyLeb b c = true → keyLeb a c = true.
Proof.
  destruct a, b, c; simpl; try done. apply string_leb_trans.
Qed.

Lemma keyLeb_antisym (a b : SortKey) :
  keyLeb a b = true → keyLeb b a = true → a = b.
Proof.
  destruct a, b; simpl; try done.
  intros H1 H2. f_equal. by apply String.leb_antisym.
Qed.

Lemma precedes_trans (path : string) (dir : Z) (a b c : Track.t) :
  precedes path dir a b = true → precedes path dir b c = true →
  precedes path dir a c = true.
Proof.
  unfold precedes. destruct (dir =? 1); eauto using keyLeb_trans.
Qed.

Lemma precedes_antisym (path : string) (dir : Z) (a b : Track.t) :
  precedes path dir a b = true → precedes path dir b a = true →
  keyOf path dir a = keyOf path dir b.
Proof.
  unfold precedes. destruct (dir =? 1); intros H1 H2;
    [by apply keyLeb_antisym|symmetry; by apply keyLeb_antisym].
Qed.

Section OneOrder.
Context {A K : Type} (key : A → K) (le : A → A → bool).
Hypothesis le_trans : ∀ a b c, le a b = true → le b c = true → le a c = true.
Hypothesis le_antisym : ∀ a b, le a b = true → le b a = true → key a = key b.

Lemma sorted_head_least (a : A) (l : list A) (b : A) :
  Sorted (λ x y, le x y = true) (a :: l) → b ∈ l → le a b = true.
Proof.
  intros Hs Hb. apply Sorted_StronglySorted in Hs.
  - apply StronglySorted_inv in Hs as [_ Hall].
    rewrite List.Forall_forall in Hall. apply Hall.
    by apply list_elem_of_In.
  - intros x y z. apply le_trans.
Qed.

Lemma sorted_unique (s1 s2 : list A) :
  NoDup (key <$> s1) →
  Sorted (λ x y, le x y = true) s1 →
  Sorted (λ x y, le x y = true) s2 →
  s1 ≡ₚ s2 → s1 = s2.
Proof.
  revert s2. induction s1 as [|a s1 IH]; intros s2 Hnd H1 H2 Hp.
  - by apply Permutation_nil in Hp.
  - destruct s2 as [|b s2].
    { symmetry in Hp. by apply Permutation_nil in Hp. }
    rewrite fmap_cons in Hnd. apply NoDup_cons in Hnd as [Ha Hnd].
    assert (a = b) as <-.
    { assert (b ∈ a :: s1) as Hb by (rewrite Hp; by left).
      assert (a ∈ b :: s2) as Ha' by (rewrite <- Hp; by left).
      apply elem_of_cons in Hb as [->|Hb]; [done|].
      apply elem_of_cons in Ha' as [->|Ha']; [done|].
      exfalso. apply Ha.
      rewrite (le_antisym a b); [apply list_elem_of_fmap; eauto| |].
      - by eapply sorted_head_least.
      - by eapply sorted_head_least. }
    f_equal. apply IH; [done|by inversion H1|by inversion H2|].
    by apply Permutation_cons_inv in Hp.
Qed.
End OneOrder.

Section QueryMore.
Variable regexValid : string → bool.
Variable regexTest : string → string → bool.

(** X12. Whenever [getTracks] resolves, the world is unchanged, every
    record on the page is a stored record that satisfies the filter built
    from the query (in particular it carries the requested genre, when a
    non-empty one is given), the page is no longer than [total], and
    [total] no greater than the number of stored records. *)
Theorem getTracks_sound (q : QueryParams.t) (w : World) (r : TracksPage.t) :
  (getTracks regexValid regexTest q w).1 = inr r →
  (getTracks regexValid regexTest q w).2 = w
  ∧ (∀ t, t ∈ TracksPage.tracks r →
          t ∈ tracks w
          ∧ matches regexTest
              (buildFilter (default "" (QueryParams.search q))
                 (QueryParams.genre q) (QueryParams.artist q)) t = true)
  ∧ (∀ t g, t ∈ TracksPage.tracks r →
            QueryParams.genre q = Some g → g ≠ "" → g ∈ Track.genres t)
  ∧ (length (TracksPage.tracks r) ≤ TracksPage.total r)%nat
  ∧ (TracksPage.total r ≤ length (tracks w))%nat.
Proof.
  intros Hr. split; [apply getTracks_world|].
  destruct (getTracks_inv _ _ _ _ _ Hr) as [Hv Hs].
  rewrite getTracks_run in Hr by done.
  unfold cursor_skip in *. destruct (_ <? 0); [done|]. simpl in Hr.
  inversion Hr as [Hr']. clear Hr Hr'. simpl.
  set (f := buildFilter _ _ _).
  assert (∀ t, t ∈ cursor_limit (default 10 (QueryParams.limit q))
                     (drop (Z.to_nat ((default 1 (QueryParams.page q) - 1)
                                      * default 10 (QueryParams.limit q)))
                        (matchingSorted regexTest q w)) →
               t ∈ tracks w ∧ matches regexTest f t = true) as Hin.
  { intros t Ht.
    apply (sublist_subseteq _ _ (cursor_limit_sublist _ _)) in Ht.
    apply subseteq_drop in Ht. rewrite matchingSorted_perm in Ht.
    apply list_elem_of_In, filter_In in Ht as [Ht Hm].
    split; [by apply list_elem_of_In|done]. }
  split; [done|]. split; [|split].
  - intros t g Ht Hg Hne. apply Hin in Ht as [_ Hm].
    subst f. unfold matches, buildFilter in Hm. rewrite Hg in Hm.
    simpl in Hm. rewrite (proj2 (truthy_true g) Hne) in Hm. simpl in Hm.
    apply andb_true_iff in Hm as [Hm _].
    apply andb_true_iff in Hm as [_ Hm].
    by apply bool_decide_eq_true in Hm.
  - pose proof (Permutation_length (matchingSorted_perm regexTest q w))
      as Hlen.
    fold f in Hlen.
    etrans; [apply sublist_length, cursor_limit_sublist|].
    rewrite length_drop. lia.
  - apply filter_length_le.
Qed.

(** X13. A page that starts at or beyond the end of the matches is empty,
    and [total] still counts all matches: for a query whose patterns are
    regular expressions and whose sort field is a well-formed field path,
    when (page−1)×limit is at least the number of matching records,
    [getTracks] resolves to no tracks and that number. *)
Theorem getTracks_past_end (q : QueryParams.t) (w : World) :
  let page := default 1 (QueryParams.page q) in
  let limit := default 10 (QueryParams.limit q) in
  let matching :=
    List.filter
      (matches regexTest
         (buildFilter (default "" (QueryParams.search q))
            (QueryParams.genre q) (QueryParams.artist q)))
      (tracks w) in
  patternsValid regexValid q = true →
  sortPathAccepted (default "createdAt" (QueryParams.sort q)) = true →
  Z.of_nat (length matching) ≤ (page - 1) * limit →
  getTracks regexValid regexTest q w
  = (inr (TracksPage.mk [] (length matching)), w).
Proof.
  intros page limit matching Hv Hs Hfar. rewrite getTracks_run by done.
  fold page limit matching. unfold cursor_skip.
  rewrite (proj2 (Z.ltb_ge _ _)) by lia.
  rewrite drop_ge.
  - unfold cursor_limit. destruct (limit =? 0); [done|].
    by rewrite take_nil.
  - rewrite (Permutation_length (matchingSorted_perm regexTest q w)).
    fold matching. lia.
Qed.

(** X14. Filters only narrow: dropping the search, the genre or the
    artist filter from a query (any subset of them) never lowers [total],
    and with all three absent [total] is the number of stored records. *)
Theorem getTracks_narrowing (s g a s' g' a' so o : option string)
    (p l p' l' : option Z) (w : World) (r r' : TracksPage.t) :
  s' = s ∨ s' = None →
  g' = g ∨ g' = None →
  a' = a ∨ a' = None →
  (getTracks regexValid regexTest (QueryParams.mk s g a so o p l) w).1
  = inr r →
  (getTracks regexValid regexTest (QueryParams.mk s' g' a' so o p' l') w).1
  = inr r' →
  (TracksPage.total r ≤ TracksPage.total r')%nat
  ∧ (s' = None → g' = None → a' = None →
     TracksPage.total r' = length (tracks w)).
Proof.
  intros Hs Hg Ha Hr Hr'.
  destruct (getTracks_inv _ _ _ _ _ Hr) as [Hv Hp].
  destruct (getTracks_inv _ _ _ _ _ Hr') as [Hv' Hp'].
  rewrite getTracks_run in Hr, Hr' by done.
  destruct (cursor_skip _ _) in Hr; [done|].
  destruct (cursor_skip _ _) in Hr'; [done|].
  simpl in Hr, Hr'. inversion Hr as [Hr1]. inversion Hr' as [Hr1'].
  clear Hr Hr' Hr1 Hr1'. simpl. split.
  - apply filter_length_mono. intros t. unfold matches, buildFilter. simpl.
    intros Hm. apply andb_true_iff in Hm as [Hm Hma].
    apply andb_true_iff in Hm as [Hms Hmg].
    destruct Hs as [->| ->], Hg as [->| ->], Ha as [->| ->]; simpl;
      rewrite ?Hms, ?Hmg, ?Hma; done.
  - intros -> -> ->. simpl. by rewrite filter_all.
Qed.

(** X15. The query with no parameters resolves to the first ten records
    in descending order of [createdAt], with [total] the number of stored
    records; when at most ten records are stored the page holds all of
    them. *)
Theorem getTracks_default (w : World) :
  let q := QueryParams.mk None None None None None None None in
  let page := take 10 (cursor_sort "createdAt" (-1) (tracks w)) in
  getTracks regexValid regexTest q w
  = (inr (TracksPage.mk page (length (tracks w))), w)
  ∧ descending "createdAt" page
  ∧ ((length (tracks w) ≤ 10)%nat → page ≡ₚ tracks w).
Proof.
  intros q page. split; [|split].
  - rewrite getTracks_run; [|reflexivity|reflexivity].
    unfold matchingSorted. simpl. by rewrite filter_all.
  - apply Sorted_take, cursor_sort_descending.
  - intros Hlen. subst page. rewrite take_ge.
    + apply cursor_sort_perm.
    + by rewrite (Permutation_length (cursor_sort_perm _ _ _)).
Qed.

(** X16. Consecutive pages tile the sorted matches. Take a query whose
    patterns are regular expressions and whose sort field is a
    well-formed field path, a page number and a limit of at least 1, and
    suppose no two matching records have the same sort key. Then the
    sorted order of the matches is the only one there is (every sorted
    rearrangement of the matches is this order, so nothing depends on how
    equal keys would be ordered), both pages resolve with the same
    [total], and page [p] followed by page [p+1] is the stretch of
    2×limit records of that order that starts after the first
    (p−1)×limit: no record is skipped or repeated between them. *)
Theorem getTracks_pages_tile (q : QueryParams.t) (p l : Z) (w : World) :
  let path := default "createdAt" (QueryParams.sort q) in
  let dir := direction (default "desc" (QueryParams.order q)) in
  let matching :=
    List.filter
      (matches regexTest
         (buildFilter (default "" (QueryParams.search q))
            (QueryParams.genre q) (QueryParams.artist q)))
      (tracks w) in
  1 ≤ p →
  1 ≤ l →
  patternsValid regexValid q = true →
  sortPathAccepted path = true →
  NoDup (keyOf path dir <$> matching) →
  (∀ s, s ≡ₚ matching →
        Sorted (λ a b, precedes path dir a b = true) s →
        s = matchingSorted regexTest q w)
  ∧ ∃ r1 r2,
      getTracks regexValid regexTest
        (QueryParams.with_paging (Some p) (Some l) q) w
      = (inr r1, w)
      ∧ getTracks regexValid regexTest
          (QueryParams.with_paging (Some (p + 1)) (Some l) q) w
        = (inr r2, w)
      ∧ TracksPage.tracks r1 ++ TracksPage.tracks r2
        = take (2 * Z.to_nat l)
            (drop (Z.to_nat ((p - 1) * l)) (matchingSorted regexTest q w))
      ∧ TracksPage.total r1 = TracksPage.total r2.
Proof.
  intros path dir matching Hp Hl Hv Hs Hnd. split.
  - intros s Hperm Hsorted.
    apply (sorted_unique (keyOf path dir) (precedes path dir)).
    + apply precedes_trans.
    + apply precedes_antisym.
    + by rewrite Hperm.
    + done.
    + apply (sortBy_Sorted (precedes path dir)). apply precedes_total.
    + rewrite Hperm. symmetry. apply matchingSorted_perm.
  - rewrite (getTracks_run _ _ (QueryParams.with_paging (Some p) (Some l) q))
      by done.
    rewrite (getTracks_run _ _
               (QueryParams.with_paging (Some (p + 1)) (Some l) q))
      by done.
    simpl. unfold cursor_skip, cursor_limit.
    rewrite !(proj2 (Z.ltb_ge _ _)) by nia.
    rewrite (proj2 (Z.eqb_neq _ _)) by lia.
    rewrite Z.abs_eq by lia.
    eexists _, _. split; [reflexivity|]. split; [reflexivity|]. simpl.
    split; [|done].
    change (matchingSorted regexTest (QueryParams.with_paging _ _ q) w)
      with (matchingSorted regexTest q w).
    change (matchingSorted regexTest (QueryParams.with_paging _ _ q) w)
      with (matchingSorted regexTest q w).
    replace (Z.to_nat ((p + 1 - 1) * l))
      with (Z.to_nat ((p - 1) * l) + Z.to_nat l)%nat by nia.
    rewrite <- drop_drop, take_take_drop. f_equal. lia.
Qed.
End QueryMore.

Lemma getTracks_sound_witness :
  (getTracks plainValid plainTest popQuery sampleWorld).2 = sampleWorld
  ∧ (∀ t, t ∈ [tuneTrack] →
          t ∈ tracks sampleWorld
          ∧ matches plainTest
              (buildFilter (default "" (QueryParams.search popQuery))
                 (QueryParams.genre popQuery) (QueryParams.artist popQuery))
              t = true)
  ∧ (∀ t g, t ∈ [tuneTrack] →
            QueryParams.genre popQuery = Some g → g ≠ "" →
            g ∈ Track.genres t)
  ∧ (length [tuneTrack] ≤ 1)%nat
  ∧ (1 ≤ length (tracks sampleWorld))%nat.
Proof.
  apply (getTracks_sound plainValid plainTest popQuery sampleWorld
           (TracksPage.mk [tuneTrack] 1)).
  reflexivity.
Defined.

Lemma getTracks_past_end_witness :
  getTracks plainValid plainTest farPage sampleWorld
  = (inr (TracksPage.mk [] 2), sampleWorld).
Proof.
  apply (getTracks_past_end plainValid plainTest farPage sampleWorld);
    first [reflexivity | simpl; lia].
Defined.

Lemma getTracks_narrowing_witness :
  (1 ≤ 2)%nat
  ∧ (@None string = None → @None string = None → @None string = None →
     2%nat = length (tracks sampleWorld)).
Proof.
  apply (getTracks_narrowing plainValid plainTest
           None (Some "Pop") None None None None
           None None (Some 1) (Some 1) None None sampleWorld
           (TracksPage.mk [tuneTrack] 1)
           (TracksPage.mk [tuneTrack; songTrack] 2));
    first [by left | by right | reflexivity].
Defined.

Lemma getTracks_pages_tile_witness :
  (∀ s, s ≡ₚ [songTrack; tuneTrack] →
        Sorted (λ a b, precedes "title" 1 a b = true) s →
        s = [songTrack; tuneTrack])
  ∧ ∃ r1 r2,
      getTracks plainValid plainTest
        (QueryParams.with_paging (Some 1) (Some 1) secondPage) sampleWorld
      = (inr r1, sampleWorld)
      ∧ getTracks plainValid plainTest
          (QueryParams.with_paging (Some (1 + 1)) (Some 1) secondPage)
          sampleWorld
        = (inr r2, sampleWorld)
      ∧ TracksPage.tracks r1 ++ TracksPage.tracks r2
        = take (2 * Z.to_nat 1)
            (drop (Z.to_nat ((1 - 1) * 1))
               (matchingSorted plainTest secondPage sampleWorld))
      ∧ TracksPage.total r1 = TracksPage.total r2.
Proof.
  apply (getTracks_pages_tile plainValid plainTest secondPage 1 1
           sampleWorld);
    first [lia | reflexivity | compute_done].
Defined.

(** The two pages of the sample world, one record each, in ascending
    order of title. *)
Example getTracks_pages_sample :
  TracksPage.tracks
    <$> resolved (getTracks plainValid plainTest
                    (QueryParams.with_paging (Some 1) (Some 1) secondPage)
                    sampleWorld)
  = Some [songTrack]
  ∧ TracksPage.tracks
      <$> resolved (getTracks plainValid plainTest secondPage sampleWorld)
    = Some [tuneTrack].
Proof. split; reflexivity. Qed.

(** ** Uploading and deleting audio *)

Section UploadFacts.
Variable uploadAnswer : string → list Byte.byte → option string.

(** X17. [saveAudioFile] asks the media host to store the buffer under
    the key folder/id, the very key [deleteAudioFile] destroys, and never
    looks at the file name. When the host reports an error the call
    rejects and the world is unchanged. When the host answers with a
    result the call resolves to its URL, the key is in the media store,
    every other key is as before, and no track record is touched: the
    upload does not set [audioFile]. So after a successful upload
    [deleteAudioFile] removes the uploaded object when the track already
    carries a non-empty [audioFile]; when the track is absent or its
    [audioFile] is empty it resolves to [false], changes nothing, and the
    uploaded object stays on the media host. *)
Theorem saveAudioFile_then_delete (i fileName : string)
    (buffer : list Byte.byte) (w : World) :
  (∀ other, saveAudioFile uploadAnswer i other buffer w
            = saveAudioFile uploadAnswer i fileName buffer w)
  ∧ match uploadAnswer (publicIdOf w i) buffer with
    | None =>
        saveAudioFile uploadAnswer i fileName buffer w
        = (inl UploadFailed, w)
    | Some url =>
        ∃ w1,
          saveAudioFile uploadAnswer i fileName buffer w = (inr url, w1)
          ∧ tracks w1 = tracks w
          ∧ (publicIdOf w i ∈ media w1)
          ∧ (∀ k, k ≠ publicIdOf w i → k ∈ media w1 ↔ k ∈ media w)
          ∧ match List.find (byId i) (tracks w) with
            | Some t =>
                if truthy (Track.audioFile t)
                then (deleteAudioFile i w1).1 = inr true
                     ∧ (publicIdOf w i ∉ media (deleteAudioFile i w1).2)
                     ∧ (∀ k, k ≠ publicIdOf w i →
                             k ∈ media (deleteAudioFile i w1).2
                             ↔ k ∈ media w)
                else deleteAudioFile i w1 = (inr false, w1)
            | None => deleteAudioFile i w1 = (inr false, w1)
            end
    end.
Proof.
  split; [done|].
  unfold saveAudioFile. run. unfold cloudinary_upload_stream. simpl.
  fold (publicIdOf w i).
  destruct (uploadAnswer (publicIdOf w i) buffer) as [url|]; [|done].
  eexists. split; [reflexivity|]. split; [done|]. simpl.
  split; [apply elem_of_union_l; by apply elem_of_singleton|].
  split.
  - intros k Hk. rewrite elem_of_union, elem_of_singleton. tauto.
  - rewrite deleteAudioFile_run, find_locate. simpl.
    destruct (locate (byId i) (tracks w)) as [[[pre t] post]|]; simpl;
      [|done].
    destruct (truthy (Track.audioFile t)); [|done]. simpl.
    split; [done|].
    change (publicIdOf (setMedia _ w) i) with (publicIdOf w i). split.
    + apply not_elem_of_difference. right. by apply elem_of_singleton.
    + intros k Hk.
      rewrite elem_of_difference, elem_of_union, !elem_of_singleton. tauto.
Qed.
End UploadFacts.

(** The sample world with one record that has no audio: after an upload
    the host accepts, the object is stored and [deleteAudioFile] leaves it
    there; an upload the host refuses rejects and stores nothing. *)
Example saveAudioFile_sample :
  let w1 := (saveAudioFile acceptingHost "2" "tune.mp3" [] quietWorld).2 in
  resolved (saveAudioFile acceptingHost "2" "tune.mp3" [] quietWorld)
  = Some "https://media.example/tracks/2"
  ∧ deleteAudioFile "2" w1 = (inr false, w1)
  ∧ "tracks/2" ∈ media w1
  ∧ saveAudioFile refusingHost "2" "tune.mp3" [] quietWorld
    = (inl UploadFailed, quietWorld).
Proof.
  split; [reflexivity|]. split; [reflexivity|].
  split; [compute_done|reflexivity].
Qed.

(** ** Ids and slugs name the same records *)

Lemma find_by_key {K : Type} `{EqDecision K} (key : Track.t → K)
    (l : list Track.t) (t : Track.t) :
  NoDup (key <$> l) → t ∈ l →
  List.find (λ x, bool_decide (key x = key t)) l = Some t.
Proof.
  induction l as [|x l IH]; intros Hnd Ht; [by apply elem_of_nil in Ht|].
  rewrite fmap_cons in Hnd. apply NoDup_cons in Hnd as [Hx Hnd]. simpl.
  case_bool_decide as Hk.
  - apply elem_of_cons in Ht as [->|Ht]; [done|].
    exfalso. apply Hx. rewrite Hk. apply list_elem_of_fmap. eauto.
  - apply elem_of_cons in Ht as [->|Ht]; [done|]. by apply IH.
Qed.

Lemma find_Some_elem (p : Track.t → bool) (l : list Track.t) (t : Track.t) :
  List.find p l = Some t → t ∈ l ∧ p t = true.
Proof.
  intros H. apply find_some in H as [Hin Hp].
  split; [by apply list_elem_of_In|done].
Qed.

(** X18. In a store with unique ids and slugs, a record read by id is
    the record read by its own slug, and a record read by slug is the
    record read by its own id. *)
Theorem same_record_by_id_and_slug (i s : string) (t : Track.t) (w : World) :
  wfStore w →
  ((getTrackById i w).1 = inr (Some t) →
   Track.id t = i ∧ getTrackBySlug (Track.slug t) w = (inr (Some t), w))
  ∧ ((getTrackBySlug s w).1 = inr (Some t) →
     Track.slug t = s ∧ getTrackById (Track.id t) w = (inr (Some t), w)).
Proof.
  intros [Hi Hs]. rewrite !getTrackById_run, !getTrackBySlug_run. simpl.
  split.
  - intros [= Hf]. apply find_Some_elem in Hf as [Hin Hp%byId_true].
    split; [done|]. f_equal. f_equal.
    by apply (find_by_key Track.slug).
  - intros [= Hf]. apply find_Some_elem in Hf as [Hin Hp].
    apply bool_decide_eq_true in Hp.
    split; [done|]. f_equal. f_equal.
    by apply (find_by_key Track.id).
Qed.

Lemma same_record_by_id_and_slug_witness :
  ((getTrackById "2" sampleWorld).1 = inr (Some tuneTrack) →
   Track.id tuneTrack = "2"
   ∧ getTrackBySlug (Track.slug tuneTrack) sampleWorld
     = (inr (Some tuneTrack), sampleWorld))
  ∧ ((getTrackBySlug "tune" sampleWorld).1 = inr (Some tuneTrack) →
     Track.slug tuneTrack = "tune"
     ∧ getTrackById (Track.id tuneTrack) sampleWorld
       = (inr (Some tuneTrack), sampleWorld)).
Proof.
  apply (same_record_by_id_and_slug "2" "tune" tuneTrack sampleWorld).
  compute_done.
Defined.

(** X19. In a collection with unique ids, an update that carries a new
    id no record holds (and no slug) resolves to the record under the new
    id: afterwards a read by the new id finds it, and a read by the old
    id finds nothing. *)
Theorem updateTrack_renames (i k : string) (u : Partial.t) (t : Track.t)
    (w : World) :
  NoDup (ids (tracks w)) →
  List.find (byId i) (tracks w) = Some t →
  Partial.id u = Some k →
  Partial.slug u = None →
  k ∉ ids (tracks w) →
  ∃ t' w',
    updateTrack i u w = (inr (Some t'), w')
    ∧ Track.id t' = k
    ∧ getTrackById k w' = (inr (Some t'), w')
    ∧ getTrackById i w' = (inr None, w').
Proof.
  intros Hnd Hfind Hk Hslug Hfree. rewrite find_locate in Hfind.
  rewrite updateTrack_run. unfold TrackModel_findOneAndUpdate.
  destruct (locate (byId i) (tracks w)) as [[[pre t0] post]|] eqn:E;
    [|done].
  simpl in Hfind. inversion Hfind; subst t0.
  pose proof (located_unique _ _ _ _ _ Hnd E) as Hgone.
  apply locate_Some in E as (E & Ht%byId_true & _).
  assert ((k ∉ ids (pre ++ post)) ∧ k ≠ i) as [Hk' Hki].
  { revert Hfree. rewrite E. unfold ids.
    rewrite !fmap_app, fmap_cons, !elem_of_app, elem_of_cons, Ht.
    intros Hfree. split; [tauto|]. intros ->. tauto. }
  simpl. rewrite Hk, Hslug. simpl. rewrite collides_same.
  assert (collides (Track.id t) k (ids (pre ++ post)) = false) as ->.
  { unfold collides. rewrite (bool_decide_eq_false_2 (k ∈ _)) by done.
    apply andb_false_r. }
  eexists _, _. split; [reflexivity|].
  assert (Track.id (applySet (withUpdatedAt (toISOString (clock w)) u) t)
          = k) as Hid by (simpl; by rewrite Hk).
  split; [done|].
  unfold ids in Hk', Hgone. rewrite fmap_app in Hk', Hgone.
  rewrite elem_of_app in Hk', Hgone.
  rewrite !getTrackById_run. simpl. split.
  - rewrite find_here; [done| |by apply byId_true].
    apply none_byId. tauto.
  - rewrite find_absent; [done|].
    apply Forall_app. split; [apply none_byId; tauto|].
    constructor; [|apply none_byId; tauto].
    apply byId_false. congruence.
Qed.

Lemma updateTrack_renames_witness :
  ∃ t' w',
    updateTrack "1" renumber sampleWorld = (inr (Some t'), w')
    ∧ Track.id t' = "7"
    ∧ getTrackById "7" w' = (inr (Some t'), w')
    ∧ getTrackById "1" w' = (inr None, w').
Proof.
  apply (updateTrack_renames "1" "7" renumber songTrack sampleWorld);
    first [reflexivity | compute_done].
Defined.

(** ** Repeating a batch *)

Lemma deleteMultipleTracks_none_stored (l : list string) (w : World) :
  (∀ j, j ∈ l → j ∉ ids (tracks w)) →
  deleteMultipleTracks l w = (inr (BatchDeleteResponse.mk [] l), w).
Proof.
  induction l as [|i rest IH]; intros Hl; [done|].
  rewrite deleteMultipleTracks_cons, deleteTrack_run.
  rewrite locate_absent by (apply Hl; by left).
  rewrite IH; [done|]. intros j Hj. apply Hl. by right.
Qed.

(** X20. Running the same batch again deletes nothing: in a collection
    with unique ids, after [deleteMultipleTracks l] a second
    [deleteMultipleTracks l] resolves with an empty [success] and the
    whole of [l] in [failed], and leaves the world as the first run left
    it. *)
Theorem deleteMultipleTracks_again (l : list string) (w : World) :
  NoDup (ids (tracks w)) →
  deleteMultipleTracks l (deleteMultipleTracks l w).2
  = (inr (BatchDeleteResponse.mk [] l), (deleteMultipleTracks l w).2).
Proof.
  intros Hnd. destruct (deleteMultipleTracks_total l w) as (r & w' & Hr).
  rewrite Hr. simpl. apply deleteMultipleTracks_none_stored.
  by destruct (deleteMultipleTracks_after _ _ _ _ Hnd Hr) as (_ & ? & _).
Qed.

Lemma deleteMultipleTracks_again_witness :
  deleteMultipleTracks ["1"; "9"]
    (deleteMultipleTracks ["1"; "9"] sampleWorld).2
  = (inr (BatchDeleteResponse.mk [] ["1"; "9"]),
     (deleteMultipleTracks ["1"; "9"] sampleWorld).2).
Proof.
  apply (deleteMultipleTracks_again ["1"; "9"] sampleWorld). compute_done.
Defined.
